(** * Daily-Habits MCP server: the habit service of [main.py]

    A shallow embedding of [src/main.py]: the two SQLite tables, the SQL
    statements the tools execute, the six tools, the lazy initialisation
    guard, and the asyncio interleavings of concurrent guard calls.

    Conventions of the model.
    - A timestamp ([CURRENT_TIMESTAMP]) is a number of seconds in [Z]; a
      calendar date is a day number in [Z]; SQLite's [DATE(ts)] is the floor
      of [ts / 86400].  The ISO text that travels between [DATE(...)] and
      [date.fromisoformat] is not modelled: a day is its day number, and the
      year range of [datetime.date] is outside the model.
    - The clock is an input: [now] (the store's timestamp) for the inserts,
      [today] ([date.today()], process-local) for the streak.  The two are
      independent inputs.
    - The [while True] loop of [get_current_streak] takes fuel, one unit per
      iteration. *)

From stdpp Require Import base option list sorting gmap strings pretty.
From Stdlib Require Import ZArith Lia.

Local Open Scope Z_scope.

(** ** Outcomes and the state-and-exception monad *)

Inductive exn : Type :=
  | OperationalError (msg : string)
  | IntegrityError (msg : string)
  | OverflowError (msg : string)
  | RuntimeError (msg : string).

Inductive outcome (A : Type) : Type :=
  | Returned (a : A)
  | Raised (e : exn)
  | OutOfFuel.
Arguments Returned {A} a.
Arguments Raised {A} e.
Arguments OutOfFuel {A}.

Definition SE (S A : Type) : Type := S → outcome A * S.

Global Instance SE_ret {S} : MRet (SE S) := λ A a s, (Returned a, s).

Global Instance SE_bind {S} : MBind (SE S) := λ A B k m s,
  match m s with
  | (Returned a, s') => k a s'
  | (Raised e, s') => (Raised e, s')
  | (OutOfFuel, s') => (OutOfFuel, s')
  end.

Definition raise {S A} (e : exn) : SE S A := λ s, (Raised e, s).
Definition out_of_fuel {S A} : SE S A := λ s, (OutOfFuel, s).
Definition get_state {S} : SE S S := λ s, (Returned s, s).
Definition put_state {S} (s : S) : SE S unit := λ _, (Returned tt, s).

(** ** The tables *)

Module Store.

(** A row of [habits]. *)
Record Habit : Type := mkHabit {
  h_id : Z;
  h_name : string;
  h_description : string;
  h_created_at : Z;
  h_is_active : bool
}.

(** A row of [habit_completions]. *)
Record Completion : Type := mkCompletion {
  hc_id : Z;
  hc_habit_id : Z;
  hc_completion_date : Z
}.

(** The two tables with their AUTOINCREMENT counters ([sqlite_sequence]). *)
Record Tables : Type := mkTables {
  habits : list Habit;
  habit_completions : list Completion;
  habits_seq : Z;
  habit_completions_seq : Z
}.

Definition empty_tables : Tables :=
  {| habits := []; habit_completions := []; habits_seq := 0; habit_completions_seq := 0 |}.

(** AUTOINCREMENT: one more than the largest rowid ever used. *)
Definition next_rowid (seq : Z) (ids : list Z) : Z :=
  Z.max seq (foldr Z.max 0 ids) + 1.

(** [DATE(completion_date)]: the time of day is dropped. *)
Definition DATE (ts : Z) : Z := ts `div` 86400.

(** [CREATE TABLE IF NOT EXISTS habits ...; CREATE TABLE IF NOT EXISTS
    habit_completions ...] *)
Definition create_tables_if_not_exists (db : option Tables) : Tables :=
  match db with
  | Some t => t
  | None => empty_tables
  end.

(** [INSERT INTO habits (name, description) VALUES (?, ?)] *)
Definition insert_habit (now : Z) (name description : string) (t : Tables) : Tables :=
  let i := next_rowid (habits_seq t) (h_id <$> habits t) in
  {| habits := habits t ++ [mkHabit i name description now true];
     habit_completions := habit_completions t;
     habits_seq := i;
     habit_completions_seq := habit_completions_seq t |}.

(** [SELECT 1 FROM habits WHERE id = ?] has a row. *)
Definition habit_exists (habit_id : Z) (t : Tables) : bool :=
  bool_decide (habit_id ∈ h_id <$> habits t).

(** [INSERT INTO habit_completions (habit_id) VALUES (?)]; with foreign
    keys enforced the parent row must exist. *)
Definition insert_completion (foreign_keys : bool) (now habit_id : Z) (t : Tables)
  : exn + Tables :=
  if foreign_keys && negb (habit_exists habit_id t)
  then inl (IntegrityError "FOREIGN KEY constraint failed")
  else
    let i := next_rowid (habit_completions_seq t) (hc_id <$> habit_completions t) in
    inr {| habits := habits t;
           habit_completions := habit_completions t ++ [mkCompletion i habit_id now];
           habits_seq := habits_seq t;
           habit_completions_seq := i |}.

(** [DELETE FROM habits WHERE id = ?]; with foreign keys enforced, ON
    DELETE CASCADE removes the completions of every deleted habit. *)
Definition delete_habit_row (foreign_keys : bool) (habit_id : Z) (t : Tables) : Tables :=
  {| habits := filter (λ h, h_id h ≠ habit_id) (habits t);
     habit_completions :=
       if foreign_keys && habit_exists habit_id t
       then filter (λ c, hc_habit_id c ≠ habit_id) (habit_completions t)
       else habit_completions t;
     habits_seq := habits_seq t;
     habit_completions_seq := habit_completions_seq t |}.

(** A row of [list_completions]: (hc.id, h.name, hc.completion_date). *)
Definition CompletionRow : Type := Z * string * Z.

Definition later_first (r1 r2 : CompletionRow) : Prop := r2.2 ≤ r1.2.
Global Instance later_first_dec r1 r2 : Decision (later_first r1 r2).
Proof. unfold later_first. apply _. Defined.

(** [SELECT hc.id, h.name, hc.completion_date FROM habit_completions hc
    JOIN habits h ON hc.habit_id = h.id] *)
Definition join_completions (t : Tables) : list CompletionRow :=
  c ← habit_completions t;
  h ← filter (λ h, hc_habit_id c = h_id h) (habits t);
  [(hc_id c, h_name h, hc_completion_date c)].

(** ... [ORDER BY hc.completion_date DESC] *)
Definition select_completions (t : Tables) : list CompletionRow :=
  merge_sort later_first (join_completions t).

Definition day_desc (d1 d2 : Z) : Prop := d2 ≤ d1.
Global Instance day_desc_dec d1 d2 : Decision (day_desc d1 d2).
Proof. unfold day_desc. apply _. Defined.

(** The completions of one habit. *)
Definition completions_of (habit_id : Z) (t : Tables) : list Completion :=
  filter (λ c, hc_habit_id c = habit_id) (habit_completions t).

(** [SELECT DISTINCT DATE(completion_date) AS day FROM habit_completions
    WHERE habit_id = ? ORDER BY day DESC] *)
Definition select_distinct_days (habit_id : Z) (t : Tables) : list Z :=
  merge_sort day_desc (remove_dups (DATE ∘ hc_completion_date <$> completions_of habit_id t)).

(** Every completion row belongs to a stored habit. *)
Definition referential_integrity (t : Tables) : Prop :=
  ∀ c, c ∈ habit_completions t → hc_habit_id c ∈ h_id <$> habits t.

Global Instance Completion_eq_dec : EqDecision Completion.
Proof. solve_decision. Defined.

Global Instance Habit_eq_dec : EqDecision Habit.
Proof. solve_decision. Defined.

(** Row ids are positive, distinct and at most the AUTOINCREMENT counter. *)
Definition ids_sound (seq : Z) (ids : list Z) : Prop :=
  NoDup ids ∧ ∀ i, i ∈ ids → 1 ≤ i ≤ seq.

Definition tables_sound (t : Tables) : Prop :=
  ids_sound (habits_seq t) (h_id <$> habits t)
  ∧ ids_sound (habit_completions_seq t) (hc_id <$> habit_completions t).

(** The AUTOINCREMENT counters are never negative. *)
Definition seqs_nonneg (t : Tables) : Prop :=
  0 ≤ habits_seq t ∧ 0 ≤ habit_completions_seq t.

End Store.

(** ** The service: process state, connections, guard and tools *)

Module Service.
Import Store.

(** The process globals and the database file. [store = None]: the file
    has no tables yet. [store_fault]: the store rejects the connections of
    the current call (unreachable, permission error). *)
Record World : Type := mkWorld {
  db_initialized : bool;
  db_init_lock : bool;
  store : option Tables;
  store_fault : option exn
}.

Definition set_db_initialized (b : bool) (w : World) : World :=
  {| db_initialized := b; db_init_lock := db_init_lock w;
     store := store w; store_fault := store_fault w |}.
Definition set_db_init_lock (b : bool) (w : World) : World :=
  {| db_initialized := db_initialized w; db_init_lock := b;
     store := store w; store_fault := store_fault w |}.
Definition set_store (s : option Tables) (w : World) : World :=
  {| db_initialized := db_initialized w; db_init_lock := db_init_lock w;
     store := s; store_fault := store_fault w |}.
Definition set_store_fault (f : option exn) (w : World) : World :=
  {| db_initialized := db_initialized w; db_init_lock := db_init_lock w;
     store := store w; store_fault := f |}.

Definition stored_habits (w : World) : list Habit :=
  match store w with Some t => habits t | None => [] end.
Definition stored_completions (w : World) : list Completion :=
  match store w with Some t => habit_completions t | None => [] end.

(** An open connection: what is committed in the file, the uncommitted
    working copy, and the per-connection foreign-key switch. *)
Record Conn : Type := mkConn {
  committed : option Tables;
  working : option Tables;
  foreign_keys : bool
}.

(** [async with aiosqlite.connect(DB_PATH) as db: body]: what the body
    did not commit is dropped when the connection closes. *)
Definition with_connection {A} (body : SE Conn A) : SE World A := λ w,
  match store_fault w with
  | Some e => (Raised e, w)
  | None =>
      let '(r, c) := body {| committed := store w; working := store w; foreign_keys := false |} in
      (r, set_store (committed c) w)
  end.

(** [PRAGMA foreign_keys = ON] *)
Definition pragma_foreign_keys_on : SE Conn unit := λ c,
  (Returned tt, {| committed := committed c; working := working c; foreign_keys := true |}).

Definition set_working (t : Tables) : SE Conn unit := λ c,
  (Returned tt, {| committed := committed c; working := Some t; foreign_keys := foreign_keys c |}).

(** [db.commit()] *)
Definition commit : SE Conn unit := λ c,
  (Returned tt, {| committed := working c; working := working c; foreign_keys := foreign_keys c |}).

(** A statement on the two tables fails when they do not exist. *)
Definition the_tables : SE Conn Tables := λ c,
  match working c with
  | Some t => (Returned t, c)
  | None => (Raised (OperationalError "no such table"), c)
  end.

(** The integers a statement parameter can carry: 64-bit signed. *)
Definition sqlite_int (n : Z) : Prop :=
  -9223372036854775808 ≤ n ≤ 9223372036854775807.

Global Instance sqlite_int_dec n : Decision (sqlite_int n).
Proof. unfold sqlite_int. apply _. Defined.

Definition int_too_large : exn :=
  OverflowError "Python int too large to convert to SQLite INTEGER".

(** Binding a Python [int] to a [?] of the statement; [habit_id] is any
    Python integer, and the bind raises outside the 64-bit range. *)
Definition bind_integer (n : Z) : SE Conn unit :=
  if decide (sqlite_int n) then mret tt else raise int_too_large.

Definition execute_create_tables : SE Conn unit := λ c,
  set_working (create_tables_if_not_exists (working c)) c.

Definition execute_insert_habit (now : Z) (name description : string) : SE Conn unit :=
  t ← the_tables; set_working (insert_habit now name description t).

Definition execute_select_habits : SE Conn (list Habit) :=
  t ← the_tables; mret (habits t).

Definition execute_select_habit (habit_id : Z) : SE Conn bool :=
  t ← the_tables;
  bind_integer habit_id;;
  mret (habit_exists habit_id t).

Definition execute_insert_completion (now habit_id : Z) : SE Conn unit :=
  t ← the_tables;
  bind_integer habit_id;;
  c ← get_state;
  match insert_completion (foreign_keys c) now habit_id t with
  | inl e => raise e
  | inr t' => set_working t'
  end.

Definition execute_delete_habit (habit_id : Z) : SE Conn unit :=
  t ← the_tables;
  bind_integer habit_id;;
  c ← get_state;
  set_working (delete_habit_row (foreign_keys c) habit_id t).

Definition execute_select_completions : SE Conn (list CompletionRow) :=
  t ← the_tables; mret (select_completions t).

Definition execute_select_distinct_days (habit_id : Z) : SE Conn (list Z) :=
  t ← the_tables;
  bind_integer habit_id;;
  mret (select_distinct_days habit_id t).

(** [init_db] *)
Definition init_db : SE World unit :=
  with_connection (
    pragma_foreign_keys_on;;
    execute_create_tables;;
    commit).

(** [_get_db_init_lock]: the lock is created on first use. *)
Definition _get_db_init_lock : SE World unit := λ w,
  (Returned tt, set_db_init_lock true w).

(** [ensure_db_initialized], run without a competing task: the lock is
    free, so the second test of the flag reads what the first one read. *)
Definition ensure_db_initialized : SE World unit :=
  w ← get_state;
  if db_initialized w then mret tt
  else
    _get_db_init_lock;;
    w' ← get_state;
    if db_initialized w' then mret tt
    else
      init_db;;
      w'' ← get_state;
      put_state (set_db_initialized true w'').

(** [add_habit] *)
Definition add_habit (now : Z) (name description : string) : SE World string :=
  ensure_db_initialized;;
  with_connection (
    pragma_foreign_keys_on;;
    execute_insert_habit now name description;;
    commit);;
  mret ("Habit '" +:+ name +:+ "' added successfully.").

(** [list_habits] *)
Definition list_habits : SE World (list Habit) :=
  ensure_db_initialized;;
  with_connection (
    pragma_foreign_keys_on;;
    execute_select_habits).

(** [complete_habit] *)
Definition complete_habit (now habit_id : Z) : SE World string :=
  ensure_db_initialized;;
  found ← with_connection (
    pragma_foreign_keys_on;;
    found ← execute_select_habit habit_id;
    if negb found then mret false
    else
      execute_insert_completion now habit_id;;
      commit;;
      mret true);
  if negb found then mret ("Habit " +:+ pretty habit_id +:+ " does not exist.")
  else mret ("Habit " +:+ pretty habit_id +:+ " marked as completed for today.").

(** [list_completions] *)
Definition list_completions : SE World (list CompletionRow) :=
  ensure_db_initialized;;
  with_connection (
    pragma_foreign_keys_on;;
    execute_select_completions).

(** [delete_habit] *)
Definition delete_habit (habit_id : Z) : SE World string :=
  ensure_db_initialized;;
  with_connection (
    pragma_foreign_keys_on;;
    execute_delete_habit habit_id;;
    commit);;
  mret ("Habit " +:+ pretty habit_id +:+ " deleted successfully.").

(** The loop of [get_current_streak]; [None]: the fuel ran out before the
    [break]. *)
Fixpoint streak_loop (fuel : nat) (completion_days : gset Z) (today streak : Z) : option Z :=
  match fuel with
  | O => None
  | S fuel' =>
      let current_day := today - streak in
      if decide (current_day ∈ completion_days)
      then streak_loop fuel' completion_days today (streak + 1)
      else Some streak
  end.

(** [get_current_streak] *)
Definition get_current_streak (fuel : nat) (today habit_id : Z) : SE World Z :=
  ensure_db_initialized;;
  rows ← with_connection (
    pragma_foreign_keys_on;;
    execute_select_distinct_days habit_id);
  match rows with
  | [] => mret 0
  | _ =>
      let completion_days : gset Z := list_to_set rows in
      match streak_loop fuel completion_days today 0 with
      | Some streak => mret streak
      | None => out_of_fuel
      end
  end.

(** [_ensure_db_initialized()] at the end of the module: [init_db] run at
    import, outside the guard; the flag is not touched. *)
Definition _ensure_db_initialized : SE World unit := init_db.

(** The store accepts connections, and a set flag means the tables exist. *)
Definition serviceable (w : World) : Prop :=
  store_fault w = None ∧ (db_initialized w = true → is_Some (store w)).

(** The tables a call finds once the guard has returned. *)
Definition tables_of (w : World) : Tables := create_tables_if_not_exists (store w).

(** The world the guard leaves when it returns. *)
Definition after_guard (w : World) : World :=
  if db_initialized w then w
  else {| db_initialized := true; db_init_lock := true;
          store := Some (tables_of w); store_fault := store_fault w |}.

(** The habit's set of distinct completion dates. *)
Definition completion_dates (habit_id : Z) (w : World) : gset Z :=
  list_to_set (DATE ∘ hc_completion_date <$>
               filter (λ c, hc_habit_id c = habit_id) (stored_completions w)).

(** The value [get_current_streak] computes from the fetched rows. *)
Definition streak_of_rows (fuel : nat) (today : Z) (rows : list Z) : outcome Z :=
  match rows with
  | [] => Returned 0
  | _ => match streak_loop fuel (list_to_set rows) today 0 with
         | Some streak => Returned streak
         | None => OutOfFuel
         end
  end.

(** What [get_current_streak] returns, as a function of the set of days. *)
Definition streak_of_days (fuel : nat) (today : Z) (days : gset Z) : outcome Z :=
  if decide (days = ∅) then Returned 0
  else match streak_loop fuel days today 0 with
       | Some streak => Returned streak
       | None => OutOfFuel
       end.

(** What [get_current_streak] returns while the store is reachable. *)
Definition streak_outcome (fuel : nat) (today habit_id : Z) (w : World) : outcome Z :=
  if decide (sqlite_int habit_id)
  then streak_of_days fuel today (completion_dates habit_id w)
  else Raised int_too_large.

(** A set flag means the tables exist. *)
Definition flag_sound (w : World) : Prop :=
  db_initialized w = true → is_Some (store w).

(** Whether a call returned. *)
Definition returns {A} (r : outcome A * World) : Prop :=
  ∃ a, r.1 = Returned a.

(** The streak of a set of days: the length of the run of present days
    that ends today. *)
Definition is_streak (days : gset Z) (today n : Z) : Prop :=
  0 ≤ n ∧ (∀ i, 0 ≤ i < n → today - i ∈ days) ∧ today - n ∉ days.

End Service.

(** ** Sequential runs of the service *)

Module Trace.
Import Store Service.

(** A tool call with its inputs (the clock readings included). *)
Inductive Call : Type :=
  | AddHabit (now : Z) (name description : string)
  | ListHabits
  | CompleteHabit (now habit_id : Z)
  | ListCompletions
  | DeleteHabit (habit_id : Z)
  | GetCurrentStreak (fuel : nat) (today habit_id : Z).

(** The world after a call, whatever it returned or raised. *)
Definition invoke (c : Call) (w : World) : World :=
  match c with
  | AddHabit now name description => (add_habit now name description w).2
  | ListHabits => (list_habits w).2
  | CompleteHabit now habit_id => (complete_habit now habit_id w).2
  | ListCompletions => (list_completions w).2
  | DeleteHabit habit_id => (delete_habit habit_id w).2
  | GetCurrentStreak fuel today habit_id => (get_current_streak fuel today habit_id w).2
  end.

(** What happens to a database file over time: a tool call, a change in the
    availability of the store, or a new process, whose import of the module
    resets the globals and runs [_ensure_db_initialized()]. *)
Inductive Event : Type :=
  | Invoke (c : Call)
  | Fault (f : option exn)
  | Boot.

Definition exec (e : Event) (w : World) : World :=
  match e with
  | Invoke c => invoke c w
  | Fault f => set_store_fault f w
  | Boot => (_ensure_db_initialized (set_db_initialized false (set_db_init_lock false w))).2
  end.

Definition run (evs : list Event) (w : World) : World :=
  foldl (λ w e, exec e w) w evs.

(** No database file, no process global set, store available. *)
Definition fresh : World :=
  {| db_initialized := false; db_init_lock := false; store := None; store_fault := None |}.

(** What a call does to the tables when the store accepts it. *)
Definition call_tables (c : Call) (t : Tables) : Tables :=
  match c with
  | AddHabit now name description => insert_habit now name description t
  | CompleteHabit now habit_id =>
      match insert_completion true now habit_id t with
      | inr t' => t'
      | inl _ => t
      end
  | DeleteHabit habit_id => delete_habit_row true habit_id t
  | _ => t
  end.

(** [complete_habit] called once per timestamp of [nows]. *)
Definition complete_many (habit_id : Z) (nows : list Z) (w : World) : World :=
  foldl (λ w now, (complete_habit now habit_id w).2) w nows.

(** One habit, completed on day 9 and twice on day 10. *)
Definition demo_events : list Event :=
  [Invoke (AddHabit 777600 "Exercise" "daily");
   Invoke (CompleteHabit 777600 1);
   Invoke (CompleteHabit 864000 1);
   Invoke (CompleteHabit 900000 1)].

Definition demo : World := run demo_events fresh.

End Trace.

(** ** Concurrent calls of the guard

    The tasks of one process on the asyncio event loop.  A task runs without
    interruption from one [await] to the next, so a step of the model is one
    such segment of [ensure_db_initialized] (or the whole of the [init_db]
    it awaits), and a schedule lists which task runs next.  In [Guard] the
    lock is plain mutual exclusion: a task that finds it held is suspended,
    a suspended task goes on only when the lock is free, and which task
    takes a free lock is left to the schedule.  [asyncio.Lock] allows fewer
    orders (it wakes the first waiter only, and a call that starts while
    others wait queues behind them), so [Guard] serves for what holds of
    every schedule; [Fifo] below keeps the deque of waiters and follows
    the order of [asyncio.Lock] itself. *)

Module Guard.

(** Where a call of [ensure_db_initialized] stands. *)
Inductive pc : Type :=
  | Called              (* about to test [_db_initialized] *)
  | Acquiring           (* suspended in [async with _get_db_init_lock()] *)
  | InitDb              (* holds the lock, inside [await init_db()] *)
  | Ready               (* returned to the tool *)
  | Failed (e : exn).   (* [init_db] raised, the lock was released *)

(** The [init_db] task that [_ensure_db_initialized()] starts at import. *)
Inductive import_task : Type :=
  | ImportPending
  | ImportDone
  | ImportFailed (e : exn).

(** The globals, the existence of the tables, and three counters of the
    model: the runs of [init_db] completed inside the guard and at import,
    and the runs that found no tables and created them. *)
Record Config : Type := mkConfig {
  db_initialized : bool;
  lock_held : bool;
  schema : bool;
  guard_runs : nat;
  import_runs : nat;
  tables_created : nat;
  import : import_task;
  calls : list pc
}.

(** Completed runs of [init_db] in the process. *)
Definition init_db_runs (c : Config) : nat := (guard_runs c + import_runs c)%nat.

(** What the environment decides for the task that runs next. *)
Inductive choice : Type :=
  | Go
  | Queue                  (* [lock.acquire()] queues behind earlier waiters *)
  | InitFails (e : exn).   (* the running [init_db] raises [e] *)

Inductive move : Type :=
  | RunImport (ch : choice)
  | RunCall (i : nat) (ch : choice).

Definition with_call (i : nat) (p : pc) (c : Config) : Config :=
  {| db_initialized := db_initialized c; lock_held := lock_held c; schema := schema c;
     guard_runs := guard_runs c; import_runs := import_runs c;
     tables_created := tables_created c; import := import c;
     calls := <[i := p]> (calls c) |}.

Definition set_lock_held (b : bool) (c : Config) : Config :=
  {| db_initialized := db_initialized c; lock_held := b; schema := schema c;
     guard_runs := guard_runs c; import_runs := import_runs c;
     tables_created := tables_created c; import := import c;
     calls := calls c |}.

(** The two [CREATE TABLE IF NOT EXISTS] of [init_db], committed. *)
Definition create_schema (c : Config) : Config :=
  {| db_initialized := db_initialized c; lock_held := lock_held c; schema := true;
     guard_runs := guard_runs c; import_runs := import_runs c;
     tables_created := (if schema c then tables_created c else S (tables_created c));
     import := import c; calls := calls c |}.

(** [init_db()] completed inside the guard, then [_db_initialized = True]. *)
Definition guard_init_done (c : Config) : Config :=
  let c' := create_schema c in
  {| db_initialized := true; lock_held := lock_held c'; schema := schema c';
     guard_runs := S (guard_runs c'); import_runs := import_runs c';
     tables_created := tables_created c'; import := import c';
     calls := calls c' |}.

(** The import-time [init_db()] is over, with or without an exception. *)
Definition import_over (t : import_task) (ran : bool) (c : Config) : Config :=
  {| db_initialized := db_initialized c; lock_held := lock_held c; schema := schema c;
     guard_runs := guard_runs c;
     import_runs := (if ran then S (import_runs c) else import_runs c);
     tables_created := tables_created c; import := t;
     calls := calls c |}.

(** One segment of call [i]. A finished call, and a suspended call while
    the lock is held, do not move. *)
Definition call_step (i : nat) (ch : choice) (c : Config) : Config :=
  match calls c !! i with
  | Some Called =>
      if db_initialized c then with_call i Ready c
      else if lock_held c then with_call i Acquiring c
      else match ch with
           | Queue => with_call i Acquiring c
           | _ => with_call i InitDb (set_lock_held true c)
           end
  | Some Acquiring =>
      if lock_held c then c
      else if db_initialized c then with_call i Ready c
      else with_call i InitDb (set_lock_held true c)
  | Some InitDb =>
      match ch with
      | InitFails e => with_call i (Failed e) (set_lock_held false c)
      | _ => with_call i Ready (set_lock_held false (guard_init_done c))
      end
  | _ => c
  end.

(** The import-time [init_db()]: no lock, no flag. *)
Definition import_step (ch : choice) (c : Config) : Config :=
  match import c with
  | ImportPending =>
      match ch with
      | InitFails e => import_over (ImportFailed e) false c
      | _ => import_over ImportDone true (create_schema c)
      end
  | _ => c
  end.

Definition step (m : move) (c : Config) : Config :=
  match m with
  | RunImport ch => import_step ch c
  | RunCall i ch => call_step i ch c
  end.

Definition run_schedule (ms : list move) (c : Config) : Config :=
  foldl (λ c m, step m c) c ms.

(** A process just imported, with [n] tool calls waiting to run; [tables]:
    whether the database file already has the tables. *)
Definition boot (tables : bool) (n : nat) : Config :=
  {| db_initialized := false; lock_held := false; schema := tables;
     guard_runs := 0; import_runs := 0; tables_created := 0;
     import := ImportPending; calls := replicate n Called |}.

Definition finished (p : pc) : bool :=
  match p with Ready | Failed _ => true | _ => false end.

(** Every call has returned or raised and the import task is over. *)
Definition quiescent (c : Config) : bool :=
  forallb finished (calls c) &&
  match import c with ImportPending => false | _ => true end.

(** The number of calls inside [init_db]. *)
Definition in_init_db (p : pc) : bool :=
  match p with InitDb => true | _ => false end.

Fixpoint holders (ps : list pc) : nat :=
  match ps with
  | [] => 0
  | p :: ps' => ((if in_init_db p then 1 else 0) + holders ps')%nat
  end.

(** What holds of every configuration a schedule can reach. *)
Record invariant (tables : bool) (c : Config) : Prop := mkInvariant {
  inv_guard_runs : guard_runs c = (if db_initialized c then 1 else 0)%nat;
  inv_holders : holders (calls c) = (if lock_held c then 1 else 0)%nat;
  inv_lock : lock_held c = true → db_initialized c = false;
  inv_ready : ∀ i, calls c !! i = Some Ready → db_initialized c = true;
  inv_schema : db_initialized c = true → schema c = true;
  inv_import : import_runs c = (match import c with ImportDone => 1 | _ => 0 end)%nat;
  inv_created : tables_created c = (if tables then 0 else if schema c then 1 else 0)%nat;
  inv_tables : tables = true → schema c = true
}.

(** The segments a call still has to run, at most. *)
Definition weight (p : pc) : nat :=
  match p with
  | Called => 3%nat
  | Acquiring => 2%nat
  | InitDb => 1%nat
  | _ => 0%nat
  end.

Fixpoint work (ps : list pc) : nat :=
  match ps with
  | [] => 0%nat
  | p :: ps' => (weight p + work ps')%nat
  end.

End Guard.

(** ** The guard under the wake-up order of [asyncio.Lock]

    [Lock.acquire] takes the lock at once only if it is free and no call
    waits; otherwise the call appends a future to [_waiters] and is
    suspended until that future is done.  [Lock.release] clears [_locked]
    and sets the future of the first waiter, which takes the lock when it
    runs next. *)

Module Fifo.
Import Guard.

(** The lock as [asyncio.Lock] keeps it: [_locked] is [lock_held] of the
    configuration; [waiters] is the deque [_waiters] of the futures of the
    suspended [acquire()] calls, each named by its call, in arrival order;
    [woken]: the future of the first waiter is done. No call is cancelled. *)
Record State : Type := mkState {
  config : Config;
  waiters : list nat;
  woken : bool
}.

Definition with_config (c : Config) (s : State) : State :=
  {| config := c; waiters := waiters s; woken := woken s |}.

Definition lock_not_acquired : exn := RuntimeError "Lock is not acquired.".

(** The fast path of [Lock.acquire]: not locked, and nobody waits. *)
Definition lock_free (s : State) : bool :=
  negb (lock_held (config s)) && bool_decide (waiters s = []).

(** [Lock._wake_up_first]: the future of the first waiter, if there is one,
    is set. *)
Definition wake_up_first (s : State) : State :=
  match waiters s with
  | [] => s
  | _ :: _ => {| config := config s; waiters := waiters s; woken := true |}
  end.

(** [Lock.release]. *)
Definition release (s : State) : State + exn :=
  if lock_held (config s)
  then inl (wake_up_first (with_config (set_lock_held false (config s)) s))
  else inr lock_not_acquired.

(** Call [i] leaves [async with lock] and ends as [p]. *)
Definition leave (i : nat) (p : pc) (s : State) : State :=
  match release s with
  | inl s' => with_config (with_call i p (config s')) s'
  | inr e => with_config (with_call i (Failed e) (config s)) s
  end.

(** The future call [i] awaits in [acquire()] is the first and is done. *)
Definition first_woken (i : nat) (s : State) : bool :=
  woken s && bool_decide (head (waiters s) = Some i).

(** [await fut] returned in [acquire()]: the future leaves the deque and
    [_locked] is set. *)
Definition resume_acquire (s : State) : State :=
  {| config := set_lock_held true (config s); waiters := tail (waiters s); woken := false |}.

(** One segment of call [i]. A call that finds the lock taken, or other
    calls waiting for it, joins the deque; a suspended call runs again only
    once its future is done. *)
Definition call_step (i : nat) (ch : choice) (s : State) : State :=
  match calls (config s) !! i with
  | Some Called =>
      if db_initialized (config s) then with_config (with_call i Ready (config s)) s
      else if lock_free s
           then with_config (with_call i InitDb (set_lock_held true (config s))) s
           else {| config := with_call i Acquiring (config s);
                   waiters := waiters s ++ [i]; woken := woken s |}
  | Some Acquiring =>
      if first_woken i s
      then let s' := resume_acquire s in
           if db_initialized (config s') then leave i Ready s'
           else with_config (with_call i InitDb (config s')) s'
      else s
  | Some InitDb =>
      match ch with
      | InitFails e => leave i (Failed e) s
      | _ => leave i Ready (with_config (guard_init_done (config s)) s)
      end
  | _ => s
  end.

Definition step (m : move) (s : State) : State :=
  match m with
  | RunImport ch => with_config (import_step ch (config s)) s
  | RunCall i ch => call_step i ch s
  end.

Definition run_schedule (ms : list move) (s : State) : State :=
  foldl (λ s m, step m s) s ms.

Definition boot (tables : bool) (n : nat) : State :=
  {| config := Guard.boot tables n; waiters := []; woken := false |}.

(** The tasks the event loop can run: the import task until it is over, a
    call that has not started or is inside [init_db], and the suspended
    call whose future is done. *)
Definition runnable (m : move) (s : State) : bool :=
  match m with
  | RunImport _ =>
      match import (config s) with ImportPending => true | _ => false end
  | RunCall i _ =>
      match calls (config s) !! i with
      | Some Called | Some InitDb => true
      | Some Acquiring => first_woken i s
      | _ => false
      end
  end.

(** The segments that are still to run, at most. *)
Definition remaining (s : State) : nat :=
  (work (calls (config s))
   + match import (config s) with ImportPending => 1 | _ => 0 end)%nat.

(** The segments of a schedule that ran a task. *)
Fixpoint segments_run (ms : list move) (s : State) : nat :=
  match ms with
  | [] => 0%nat
  | m :: ms' => ((if runnable m s then 1 else 0) + segments_run ms' (step m s))%nat
  end.

(** What holds of every state a schedule can reach. *)
Record invariant (tables : bool) (s : State) : Prop := mkInvariant {
  inv_config : Guard.invariant tables (config s);
  inv_waiting : ∀ i, i ∈ waiters s ↔ calls (config s) !! i = Some Acquiring;
  inv_nodup : NoDup (waiters s);
  inv_woken : woken s = negb (lock_held (config s)) && negb (bool_decide (waiters s = []))
}.

End Fifo.

(** ** Properties of the sequential service *)

Module ServiceFacts.
Import Store Service Trace.

Ltac se_unfold :=
  cbv beta iota zeta delta
    [add_habit list_habits complete_habit list_completions delete_habit
     get_current_streak ensure_db_initialized _ensure_db_initialized init_db
     _get_db_init_lock with_connection pragma_foreign_keys_on set_working commit
     the_tables execute_create_tables execute_insert_habit execute_select_habits
     execute_select_habit execute_insert_completion execute_delete_habit
     execute_select_completions execute_select_distinct_days bind_integer
     mbind mret SE_bind SE_ret raise out_of_fuel get_state put_state
     set_db_initialized set_db_init_lock set_store set_store_fault
     db_initialized db_init_lock store store_fault
     committed working foreign_keys after_guard tables_of
     stored_habits stored_completions fst snd negb andb].

Lemma habits_tables_of w : habits (tables_of w) = stored_habits w.
Proof. destruct w as [i l [t|] f]; reflexivity. Qed.

Lemma completions_tables_of w : habit_completions (tables_of w) = stored_completions w.
Proof. destruct w as [i l [t|] f]; reflexivity. Qed.

Lemma store_after_guard w : serviceable w → store (after_guard w) = Some (tables_of w).
Proof.
  intros [_ Hs]. destruct w as [[] l [t|] f]; try reflexivity.
  destruct (Hs eq_refl) as [t Ht]. discriminate Ht.
Qed.

Lemma ensure_db_initialized_ok w :
  store_fault w = None → ensure_db_initialized w = (Returned tt, after_guard w).
Proof.
  destruct w as [[] l t f]; cbn; intros ->; se_unfold; reflexivity.
Qed.

Lemma ensure_db_initialized_raises w e :
  db_initialized w = false → store_fault w = Some e →
  ensure_db_initialized w = (Raised e, set_db_init_lock true w).
Proof.
  destruct w as [[] l t f]; cbn; intros Hi Hf; try discriminate Hi.
  subst f. se_unfold. reflexivity.
Qed.

Lemma ensure_db_initialized_set w :
  db_initialized w = true → ensure_db_initialized w = (Returned tt, w).
Proof.
  destruct w as [[] l t f]; cbn; intros Hi; try discriminate Hi. reflexivity.
Qed.

Ltac world_cases w :=
  let Hs := fresh "Hs" in
  let Hf := fresh "Hf" in
  intros [Hf Hs]; destruct w as [[] l [t|] f]; cbn in Hf; subst;
  try (exfalso; destruct (Hs eq_refl) as [? ?]; discriminate); clear Hs.

Lemma add_habit_ok now name description w :
  serviceable w →
  add_habit now name description w =
    (Returned ("Habit '" +:+ name +:+ "' added successfully."),
     set_store (Some (insert_habit now name description (tables_of w))) (after_guard w)).
Proof. world_cases w; reflexivity. Qed.

Lemma list_habits_ok w :
  serviceable w → list_habits w = (Returned (stored_habits w), after_guard w).
Proof. world_cases w; reflexivity. Qed.

Lemma list_completions_ok w :
  serviceable w →
  list_completions w = (Returned (select_completions (tables_of w)), after_guard w).
Proof. world_cases w; reflexivity. Qed.

Ltac in_range habit_id :=
  destruct (decide (sqlite_int habit_id)); [|contradiction].

Ltac out_of_range habit_id :=
  destruct (decide (sqlite_int habit_id)); [contradiction|].

Lemma delete_habit_ok habit_id w :
  serviceable w → sqlite_int habit_id →
  delete_habit habit_id w =
    (Returned ("Habit " +:+ pretty habit_id +:+ " deleted successfully."),
     set_store (Some (delete_habit_row true habit_id (tables_of w))) (after_guard w)).
Proof. world_cases w; intros Hr; se_unfold; in_range habit_id; reflexivity. Qed.

Lemma delete_habit_overflow habit_id w :
  serviceable w → ¬ sqlite_int habit_id →
  delete_habit habit_id w = (Raised int_too_large, after_guard w).
Proof. world_cases w; intros Hr; se_unfold; out_of_range habit_id; reflexivity. Qed.

Lemma complete_habit_overflow now habit_id w :
  serviceable w → ¬ sqlite_int habit_id →
  complete_habit now habit_id w = (Raised int_too_large, after_guard w).
Proof. world_cases w; intros Hr; se_unfold; out_of_range habit_id; reflexivity. Qed.

Lemma get_current_streak_overflow fuel today habit_id w :
  serviceable w → ¬ sqlite_int habit_id →
  get_current_streak fuel today habit_id w = (Raised int_too_large, after_guard w).
Proof. world_cases w; intros Hr; se_unfold; out_of_range habit_id; reflexivity. Qed.

Lemma complete_habit_missing now habit_id w :
  serviceable w → sqlite_int habit_id → habit_exists habit_id (tables_of w) = false →
  complete_habit now habit_id w =
    (Returned ("Habit " +:+ pretty habit_id +:+ " does not exist."), after_guard w).
Proof.
  world_cases w; intros Hr He; cbn in He; se_unfold; in_range habit_id;
    cbn [create_tables_if_not_exists]; rewrite He; reflexivity.
Qed.

Lemma complete_habit_found now habit_id w :
  serviceable w → sqlite_int habit_id → habit_exists habit_id (tables_of w) = true →
  complete_habit now habit_id w =
    (Returned ("Habit " +:+ pretty habit_id +:+ " marked as completed for today."),
     set_store
       (Some {| habits := stored_habits w;
                habit_completions :=
                  stored_completions w ++
                  [mkCompletion (next_rowid (habit_completions_seq (tables_of w))
                                   (hc_id <$> stored_completions w)) habit_id now];
                habits_seq := habits_seq (tables_of w);
                habit_completions_seq :=
                  next_rowid (habit_completions_seq (tables_of w))
                    (hc_id <$> stored_completions w) |})
       (after_guard w)).
Proof.
  world_cases w; intros Hr He; cbn in He; se_unfold; in_range habit_id;
    cbn [create_tables_if_not_exists]; rewrite He;
    unfold insert_completion; rewrite He; reflexivity.
Qed.

Lemma get_current_streak_ok fuel today habit_id w :
  serviceable w → sqlite_int habit_id →
  get_current_streak fuel today habit_id w =
    (streak_of_rows fuel today (select_distinct_days habit_id (tables_of w)), after_guard w).
Proof.
  world_cases w; intros Hr; se_unfold; in_range habit_id;
    cbn [create_tables_if_not_exists]; unfold streak_of_rows.
  all: match goal with |- context [select_distinct_days ?h ?t] =>
         destruct (select_distinct_days h t) as [|d rows] end; try reflexivity.
  all: match goal with |- context [streak_loop ?f ?s ?t ?k] =>
         destruct (streak_loop f s t k) end; reflexivity.
Qed.

Section streak_loop.
Variables (completion_days : gset Z) (today : Z).

Lemma streak_loop_sound fuel streak n :
  streak_loop fuel completion_days today streak = Some n →
  streak ≤ n ∧ (∀ i, streak ≤ i < n → today - i ∈ completion_days)
  ∧ today - n ∉ completion_days.
Proof.
  revert streak. induction fuel as [|fuel IH]; intros streak; cbn; [discriminate|].
  destruct (decide (today - streak ∈ completion_days)) as [Hin|Hout].
  - intros H. destruct (IH _ H) as (Hle & Hrun & Hstop).
    split; [lia|]. split; [|exact Hstop].
    intros i Hi. destruct (decide (i = streak)) as [->|Hne]; [exact Hin|].
    apply Hrun. lia.
  - intros [= <-]. split; [lia|]. split; [|exact Hout]. intros i Hi. lia.
Qed.

Lemma streak_loop_complete fuel streak n :
  streak ≤ n → (∀ i, streak ≤ i < n → today - i ∈ completion_days) →
  today - n ∉ completion_days → (Z.to_nat (n - streak) < fuel)%nat →
  streak_loop fuel completion_days today streak = Some n.
Proof.
  revert streak. induction fuel as [|fuel IH]; intros streak Hle Hrun Hstop Hfuel; [lia|].
  cbn. destruct (decide (today - streak ∈ completion_days)) as [Hin|Hout].
  - assert (streak ≠ n) by (intros ->; contradiction).
    apply IH; [lia| |exact Hstop|lia]. intros i Hi. apply Hrun. lia.
  - destruct (decide (streak = n)) as [->|Hne]; [reflexivity|].
    exfalso. apply Hout, Hrun. lia.
Qed.

Lemma streak_loop_iterations fuel streak n :
  streak_loop fuel completion_days today streak = Some n →
  (Z.to_nat (n - streak) < fuel)%nat.
Proof.
  revert streak. induction fuel as [|fuel IH]; intros streak; cbn; [discriminate|].
  destruct (decide (today - streak ∈ completion_days)) as [Hin|Hout].
  - intros H. pose proof (IH _ H). destruct (streak_loop_sound _ _ _ H) as [Hle _]. lia.
  - intros [= <-]. lia.
Qed.

Lemma streak_loop_terminates fuel streak :
  (size (filter (λ d : Z, (d ≤ today - streak)%Z) completion_days) < fuel)%nat →
  is_Some (streak_loop fuel completion_days today streak).
Proof.
  revert streak. induction fuel as [|fuel IH]; intros streak Hfuel; [lia|].
  cbn. destruct (decide (today - streak ∈ completion_days)) as [Hin|Hout]; [|eauto].
  apply IH.
  assert (filter (λ d, d ≤ today - (streak + 1)) completion_days
          ⊂ filter (λ d, d ≤ today - streak) completion_days) as Hsub.
  { split.
    - intros d. rewrite !elem_of_filter. intros [? ?]. split; [lia|done].
    - intros Hall. specialize (Hall (today - streak)).
      rewrite !elem_of_filter in Hall.
      destruct Hall as [? _]; [split; [lia|exact Hin]|lia]. }
  apply subset_size in Hsub. lia.
Qed.

Lemma streak_loop_above fuel streak earliest :
  (∀ d, d ∈ completion_days → earliest ≤ d) →
  (Z.to_nat (today - streak - earliest + 1) < fuel)%nat →
  is_Some (streak_loop fuel completion_days today streak).
Proof.
  intros Hlow. revert streak.
  induction fuel as [|fuel IH]; intros streak Hfuel; [lia|].
  cbn. destruct (decide (today - streak ∈ completion_days)) as [Hin|Hout]; [|eauto].
  apply IH. specialize (Hlow _ Hin). lia.
Qed.

End streak_loop.

Lemma size_filter_le (P : Z → Prop) `{!∀ x, Decision (P x)} (X : gset Z) :
  (size (filter P X) ≤ size X)%nat.
Proof. apply subseteq_size. intros d. rewrite elem_of_filter. tauto. Qed.

Lemma distinct_days_set habit_id w :
  list_to_set (select_distinct_days habit_id (tables_of w)) = completion_dates habit_id w.
Proof.
  unfold select_distinct_days, completion_dates, completions_of.
  rewrite completions_tables_of.
  apply set_eq. intros d. rewrite !elem_of_list_to_set.
  rewrite merge_sort_Permutation. apply elem_of_remove_dups.
Qed.

Lemma distinct_days_nil habit_id w :
  select_distinct_days habit_id (tables_of w) = [] ↔ completion_dates habit_id w = ∅.
Proof.
  rewrite <- distinct_days_set. split.
  - intros ->. reflexivity.
  - intros Hempty. destruct (select_distinct_days habit_id (tables_of w)) as [|d rows]; [done|].
    exfalso. assert (d ∈ (∅ : gset Z)) as Hd; [|set_solver].
    rewrite <- Hempty. set_solver.
Qed.

Lemma serviceable_demo : serviceable demo.
Proof. split; [reflexivity|]. intros _. vm_compute. eauto. Qed.

Lemma streak_of_rows_days fuel today habit_id w :
  streak_of_rows fuel today (select_distinct_days habit_id (tables_of w)) =
  streak_of_days fuel today (completion_dates habit_id w).
Proof.
  unfold streak_of_rows, streak_of_days.
  pose proof (distinct_days_nil habit_id w) as Hnil.
  pose proof (distinct_days_set habit_id w) as Hset.
  destruct (select_distinct_days habit_id (tables_of w)) as [|d rows].
  - rewrite decide_True; [reflexivity|]. apply Hnil. reflexivity.
  - rewrite decide_False; [rewrite Hset; reflexivity|].
    intros He. apply Hnil in He. discriminate He.
Qed.

Lemma get_current_streak_outcome fuel today habit_id w :
  serviceable w → sqlite_int habit_id →
  get_current_streak fuel today habit_id w =
    (streak_of_days fuel today (completion_dates habit_id w), after_guard w).
Proof.
  intros Hw Hr. rewrite get_current_streak_ok by assumption.
  rewrite streak_of_rows_days. reflexivity.
Qed.

Lemma get_current_streak_result fuel today habit_id w :
  serviceable w →
  get_current_streak fuel today habit_id w =
    (streak_outcome fuel today habit_id w, after_guard w).
Proof.
  intros Hw. unfold streak_outcome. destruct (decide (sqlite_int habit_id)) as [Hr|Hr].
  - apply get_current_streak_outcome; assumption.
  - apply get_current_streak_overflow; assumption.
Qed.

Lemma returned_in_range fuel today habit_id w n :
  serviceable w → (get_current_streak fuel today habit_id w).1 = Returned n →
  sqlite_int habit_id.
Proof.
  intros Hw. rewrite (get_current_streak_result _ _ _ _ Hw). unfold streak_outcome.
  destruct (decide (sqlite_int habit_id)) as [Hr|Hr]; [intros _; exact Hr|].
  intros H. discriminate H.
Qed.

Lemma sqlite_int_1 : sqlite_int 1.
Proof. unfold sqlite_int. lia. Qed.

(** C1. For every habit and every stored set of completions,
    [get_current_streak] returns the number of consecutive calendar days,
    counted backward from today, that are in the habit's set of distinct
    completion dates: every day of the run is in the set, the day before
    the run is not, and the result is 0 as soon as today is not in the
    set, whatever yesterday is. *)
Theorem get_current_streak_counts_back fuel today habit_id w :
  serviceable w →
  sqlite_int habit_id →
  (size (completion_dates habit_id w) < fuel)%nat →
  ∃ streak,
    get_current_streak fuel today habit_id w = (Returned streak, after_guard w)
    ∧ 0 ≤ streak
    ∧ (∀ i, 0 ≤ i < streak → today - i ∈ completion_dates habit_id w)
    ∧ (today - streak ∉ completion_dates habit_id w)
    ∧ (today ∉ completion_dates habit_id w → streak = 0).
Proof.
  intros Hw Hr Hfuel. rewrite get_current_streak_outcome by assumption.
  unfold streak_of_days. set (days := completion_dates habit_id w) in *.
  destruct (decide (days = ∅)) as [He|Hne].
  - exists 0. rewrite He. repeat split; try lia; try set_solver.
  - destruct (streak_loop_terminates days today fuel 0) as [n Hn].
    { pose proof (size_filter_le (λ d, d ≤ today - 0) days). lia. }
    rewrite Hn. exists n.
    destruct (streak_loop_sound _ _ _ _ _ Hn) as (Hle & Hrun & Hstop).
    repeat split; try assumption; try (apply Hrun; lia).
    intros Htoday. destruct (decide (n = 0)) as [|Hpos]; [assumption|].
    exfalso. apply Htoday. replace today with (today - 0) by lia. apply Hrun. lia.
Qed.

Lemma get_current_streak_counts_back_witness :
  ∃ streak,
    get_current_streak 3 10 1 demo = (Returned streak, after_guard demo)
    ∧ 0 ≤ streak
    ∧ (∀ i, 0 ≤ i < streak → 10 - i ∈ completion_dates 1 demo)
    ∧ (10 - streak ∉ completion_dates 1 demo)
    ∧ (10 ∉ completion_dates 1 demo → streak = 0).
Proof.
  apply (get_current_streak_counts_back 3 10 1 demo).
  - split; [reflexivity|]. intros _. vm_compute. eauto.
  - unfold sqlite_int. lia.
  - vm_compute. lia.
Defined.

(** C2, as stated, fails: [habit_id] is any Python integer, and for one
    that does not fit 64 bits the bind of the [SELECT] parameter raises
    [OverflowError], although no completion and no habit has that id. *)
Lemma get_current_streak_rejects_large_id :
  filter (λ c, hc_habit_id c = 9223372036854775808) (stored_completions demo) = []
  ∧ (9223372036854775808 ∉ h_id <$> stored_habits demo)
  ∧ get_current_streak 5 10 9223372036854775808 demo
    = (Raised (OverflowError "Python int too large to convert to SQLite INTEGER"), demo).
Proof.
  split; [reflexivity|]. split; [|vm_compute; reflexivity].
  apply (bool_decide_unpack _). vm_compute. exact I.
Qed.

(** C2, amended. For a habit id that fits a 64-bit signed integer and has
    no stored completion, whether or not a habit has that id,
    [get_current_streak] returns 0 and raises nothing; the habits table is
    not consulted. For an id outside that range the call raises the
    [OverflowError] of the parameter bind. *)
Theorem get_current_streak_no_completions fuel today habit_id w :
  serviceable w →
  filter (λ c, hc_habit_id c = habit_id) (stored_completions w) = [] →
  (sqlite_int habit_id →
     get_current_streak fuel today habit_id w = (Returned 0, after_guard w))
  ∧ (¬ sqlite_int habit_id →
       get_current_streak fuel today habit_id w = (Raised int_too_large, after_guard w)).
Proof.
  intros Hw Hnone. split; intros Hr; [|apply get_current_streak_overflow; assumption].
  rewrite get_current_streak_outcome by assumption.
  unfold streak_of_days, completion_dates. rewrite Hnone. reflexivity.
Qed.

Lemma get_current_streak_no_completions_witness :
  get_current_streak 0 10 42 demo = (Returned 0, after_guard demo).
Proof.
  apply (get_current_streak_no_completions 0 10 42 demo).
  - split; [reflexivity|]. intros _. vm_compute. eauto.
  - reflexivity.
  - unfold sqlite_int. lia.
Defined.

Lemma next_rowid_fresh seq ids : next_rowid seq ids ∉ ids.
Proof.
  assert (∀ x, x ∈ ids → x ≤ foldr Z.max 0 ids) as Hmax.
  { induction ids as [|y ids IH]; intros x Hx; [by apply elem_of_nil in Hx|].
    cbn. apply elem_of_cons in Hx as [->|Hx]; [lia|]. specialize (IH _ Hx). lia. }
  intros Hin. apply Hmax in Hin. unfold next_rowid in Hin. lia.
Qed.

Lemma habit_exists_tables_of habit_id w :
  habit_exists habit_id (tables_of w) = bool_decide (habit_id ∈ h_id <$> stored_habits w).
Proof. unfold habit_exists. rewrite habits_tables_of. reflexivity. Qed.

(** C3, as stated, fails: for an id that does not fit 64 bits, which no
    habit can have, [complete_habit] raises the [OverflowError] of the
    parameter bind of its [SELECT] instead of returning the message. *)
Lemma complete_habit_rejects_large_id :
  (9223372036854775808 ∉ h_id <$> stored_habits demo)
  ∧ complete_habit 950000 9223372036854775808 demo
    = (Raised (OverflowError "Python int too large to convert to SQLite INTEGER"), demo).
Proof.
  split; [|vm_compute; reflexivity].
  apply (bool_decide_unpack _). vm_compute. exact I.
Qed.

(** C3, amended. For a habit id that fits a 64-bit signed integer:
    [complete_habit] on an id that no habit has returns the message that
    the habit does not exist, raises nothing and leaves the stored rows as
    they were; on an id that a habit has, it appends exactly one completion
    row, for that habit and stamped with the current time, and returns the
    confirmation. For an id outside that range it raises the
    [OverflowError] of the parameter bind and stores nothing. *)
Theorem complete_habit_checks_existence now habit_id w :
  serviceable w →
  (sqlite_int habit_id → habit_id ∉ h_id <$> stored_habits w →
     ∃ w', complete_habit now habit_id w =
             (Returned ("Habit " +:+ pretty habit_id +:+ " does not exist."), w')
       ∧ stored_habits w' = stored_habits w
       ∧ stored_completions w' = stored_completions w)
  ∧ (sqlite_int habit_id → habit_id ∈ h_id <$> stored_habits w →
     ∃ w' c, complete_habit now habit_id w =
               (Returned ("Habit " +:+ pretty habit_id +:+ " marked as completed for today."), w')
       ∧ stored_habits w' = stored_habits w
       ∧ stored_completions w' = stored_completions w ++ [c]
       ∧ hc_habit_id c = habit_id
       ∧ hc_completion_date c = now
       ∧ hc_id c ∉ hc_id <$> stored_completions w)
  ∧ (¬ sqlite_int habit_id →
     ∃ w', complete_habit now habit_id w = (Raised int_too_large, w')
       ∧ stored_habits w' = stored_habits w
       ∧ stored_completions w' = stored_completions w).
Proof.
  intros Hw.
  assert (stored_habits (after_guard w) = stored_habits w
          ∧ stored_completions (after_guard w) = stored_completions w) as Hsame.
  { unfold stored_habits, stored_completions. rewrite store_after_guard by exact Hw.
    destruct w as [i l [t|] f]; split; reflexivity. }
  split; [|split]; intros Hr.
  - intros Hid. exists (after_guard w). split; [|exact Hsame].
    apply complete_habit_missing; [exact Hw|exact Hr|].
    rewrite habit_exists_tables_of. apply bool_decide_eq_false. exact Hid.
  - intros Hid. eexists _, _. split.
    + apply complete_habit_found; [exact Hw|exact Hr|].
      rewrite habit_exists_tables_of. apply bool_decide_eq_true. exact Hid.
    + cbn. repeat split; try reflexivity. apply next_rowid_fresh.
  - exists (after_guard w). split; [|exact Hsame].
    apply complete_habit_overflow; assumption.
Qed.

Lemma complete_habit_checks_existence_witness :
  (∃ w', complete_habit 950000 7 demo = (Returned "Habit 7 does not exist.", w')
     ∧ stored_habits w' = stored_habits demo
     ∧ stored_completions w' = stored_completions demo)
  ∧ (∃ w' c, complete_habit 950000 1 demo =
               (Returned "Habit 1 marked as completed for today.", w')
     ∧ stored_habits w' = stored_habits demo
     ∧ stored_completions w' = stored_completions demo ++ [c]
     ∧ hc_habit_id c = 1
     ∧ hc_completion_date c = 950000
     ∧ hc_id c ∉ hc_id <$> stored_completions demo)
  ∧ (∃ w', complete_habit 950000 (-9223372036854775809) demo = (Raised int_too_large, w')
     ∧ stored_habits w' = stored_habits demo
     ∧ stored_completions w' = stored_completions demo).
Proof.
  split; [|split].
  - apply (complete_habit_checks_existence 950000 7 demo serviceable_demo).
    + unfold sqlite_int. lia.
    + apply (bool_decide_unpack _). vm_compute. exact I.
  - apply (complete_habit_checks_existence 950000 1 demo serviceable_demo).
    + unfold sqlite_int. lia.
    + apply (bool_decide_unpack _). vm_compute. exact I.
  - apply (complete_habit_checks_existence 950000 (-9223372036854775809) demo serviceable_demo).
    unfold sqlite_int. lia.
Defined.

(** C10. [get_current_streak], [list_habits] and [list_completions] leave
    the stored habits and completions exactly as they were, for every input
    and every starting state, whether they return or raise. *)
Theorem readers_leave_rows_unchanged fuel today habit_id w :
  (stored_habits (get_current_streak fuel today habit_id w).2 = stored_habits w
   ∧ stored_completions (get_current_streak fuel today habit_id w).2 = stored_completions w)
  ∧ (stored_habits (list_habits w).2 = stored_habits w
     ∧ stored_completions (list_habits w).2 = stored_completions w)
  ∧ (stored_habits (list_completions w).2 = stored_habits w
     ∧ stored_completions (list_completions w).2 = stored_completions w).
Proof.
  destruct w as [[] l [t|] [e|]]; repeat split; try reflexivity.
  all: se_unfold; cbn [create_tables_if_not_exists].
  all: destruct (decide (sqlite_int habit_id)); try reflexivity.
  all: match goal with |- context [select_distinct_days ?h ?t] =>
         destruct (select_distinct_days h t) as [|d rows] end; try reflexivity.
  all: match goal with |- context [streak_loop ?f ?s ?t ?k] =>
         destruct (streak_loop f s t k) end; reflexivity.
Qed.

Lemma serviceable_after_guard w : serviceable w → serviceable (after_guard w).
Proof.
  intros [Hf Hs]. destruct w as [[] l t f]; cbn in *; [split; assumption|].
  split; [assumption|]. intros _. eauto.
Qed.

Lemma serviceable_set_store t w : serviceable w → serviceable (set_store (Some t) w).
Proof. intros [Hf _]. split; [exact Hf|]. intros _. cbn. eauto. Qed.

Lemma complete_habit_world now habit_id w :
  serviceable w →
  ∃ w', (complete_habit now habit_id w).2 = w' ∧ serviceable w'
    ∧ stored_habits w' = stored_habits w
    ∧ stored_completions w' =
        stored_completions w ++
        (if bool_decide (sqlite_int habit_id)
            && bool_decide (habit_id ∈ h_id <$> stored_habits w)
         then [mkCompletion (next_rowid (habit_completions_seq (tables_of w))
                               (hc_id <$> stored_completions w)) habit_id now]
         else []).
Proof.
  intros Hw. pose proof (habit_exists_tables_of habit_id w) as Hex.
  assert (serviceable (after_guard w)
          ∧ stored_habits (after_guard w) = stored_habits w
          ∧ stored_completions (after_guard w) = stored_completions w ++ []) as Hsame.
  { split; [apply serviceable_after_guard, Hw|].
    unfold stored_habits, stored_completions. rewrite store_after_guard by exact Hw.
    rewrite app_nil_r. destruct w as [i l [t|] f]; split; reflexivity. }
  destruct (decide (sqlite_int habit_id)) as [Hr|Hr];
    [rewrite (bool_decide_eq_true_2 _ Hr)|rewrite (bool_decide_eq_false_2 _ Hr)];
    cbn [andb].
  - destruct (bool_decide (habit_id ∈ h_id <$> stored_habits w)) eqn:Hb.
    + rewrite (complete_habit_found _ _ _ Hw Hr Hex). cbn [snd].
      eexists. split; [reflexivity|].
      split; [apply serviceable_set_store, serviceable_after_guard, Hw|].
      split; reflexivity.
    + rewrite (complete_habit_missing _ _ _ Hw Hr Hex). cbn [snd].
      exists (after_guard w). split; [reflexivity|exact Hsame].
  - rewrite (complete_habit_overflow _ _ _ Hw Hr). cbn [snd].
    exists (after_guard w). split; [reflexivity|exact Hsame].
Qed.

Lemma completion_dates_app habit_id w w' extra :
  stored_completions w' = stored_completions w ++ extra →
  (∀ c, c ∈ extra → hc_habit_id c = habit_id →
        DATE (hc_completion_date c) ∈ completion_dates habit_id w) →
  completion_dates habit_id w' = completion_dates habit_id w.
Proof.
  intros Hrows Hold. unfold completion_dates in *. rewrite Hrows.
  rewrite filter_app, fmap_app. apply set_eq. intros d.
  rewrite list_to_set_app_L, elem_of_union. split; [|tauto].
  intros [Hd|Hd]; [exact Hd|].
  apply elem_of_list_to_set, list_elem_of_fmap in Hd as (c & -> & Hc).
  apply list_elem_of_filter in Hc as [Hid Hc]. cbn. apply Hold; assumption.
Qed.

(** C4. Completing a habit again on calendar dates that are already in its
    set of completion dates, any number of times, leaves the result of
    [get_current_streak] unchanged, although each call stores one more row
    when the habit exists. *)
Theorem same_day_completions_count_once fuel today habit_id nows w :
  serviceable w →
  (∀ now, now ∈ nows → DATE now ∈ completion_dates habit_id w) →
  (get_current_streak fuel today habit_id (complete_many habit_id nows w)).1
    = (get_current_streak fuel today habit_id w).1
  ∧ (sqlite_int habit_id → habit_id ∈ h_id <$> stored_habits w →
     length (stored_completions (complete_many habit_id nows w))
       = (length (stored_completions w) + length nows)%nat).
Proof.
  intros Hw Hdays.
  assert (serviceable (complete_many habit_id nows w)
          ∧ completion_dates habit_id (complete_many habit_id nows w)
              = completion_dates habit_id w
          ∧ stored_habits (complete_many habit_id nows w) = stored_habits w
          ∧ (sqlite_int habit_id → habit_id ∈ h_id <$> stored_habits w →
             length (stored_completions (complete_many habit_id nows w))
               = (length (stored_completions w) + length nows)%nat))
    as (Hw' & Hsame & _ & Hlen).
  { revert w Hw Hdays. induction nows as [|now nows IH]; intros w Hw Hdays.
    - cbn. split; [assumption|]. split; [reflexivity|]. split; [reflexivity|].
      intros _ _. lia.
    - change (complete_many habit_id (now :: nows) w)
        with (complete_many habit_id nows (complete_habit now habit_id w).2).
      destruct (complete_habit_world now habit_id w Hw) as (w1 & -> & Hw1 & Hh & Hc).
      assert (completion_dates habit_id w1 = completion_dates habit_id w) as H1.
      { apply (completion_dates_app _ _ _ _ Hc). intros c Hin Hid.
        destruct (_ && _); [|by apply elem_of_nil in Hin].
        apply list_elem_of_singleton in Hin as ->. cbn.
        apply Hdays, elem_of_cons. left. reflexivity. }
      destruct (IH w1 Hw1) as (Hs & Hd & Hhs & Hl).
      { intros n Hn. rewrite H1. apply Hdays, elem_of_cons. right. exact Hn. }
      split; [exact Hs|]. split; [congruence|]. split; [congruence|].
      intros Hr Hex. rewrite Hl by (try rewrite Hh; assumption). rewrite Hc.
      rewrite !bool_decide_eq_true_2 by assumption. rewrite length_app. cbn [length andb]. lia. }
  split; [|exact Hlen].
  rewrite !get_current_streak_result by assumption. cbn [fst].
  unfold streak_outcome. rewrite Hsame. reflexivity.
Qed.

Lemma same_day_completions_count_once_witness :
  (get_current_streak 3 10 1 (complete_many 1 [800000; 899999] demo)).1
    = (get_current_streak 3 10 1 demo).1
  ∧ (sqlite_int 1 → 1 ∈ h_id <$> stored_habits demo →
     length (stored_completions (complete_many 1 [800000; 899999] demo))
       = (length (stored_completions demo) + 2)%nat).
Proof.
  apply (same_day_completions_count_once 3 10 1 [800000; 899999] demo serviceable_demo).
  intros now Hnow. apply (bool_decide_unpack _).
  apply elem_of_cons in Hnow as [->|Hnow]; [vm_compute; exact I|].
  apply list_elem_of_singleton in Hnow as ->. vm_compute. exact I.
Defined.

Lemma demo_days : completion_dates 1 demo = {[9; 10]}.
Proof. apply (bool_decide_unpack _). vm_compute. exact I. Qed.

Lemma demo_earliest d : d ∈ completion_dates 1 demo → 9 ≤ d.
Proof.
  rewrite demo_days. intros Hd.
  apply elem_of_union in Hd as [Hd|Hd]; apply elem_of_singleton in Hd; lia.
Qed.

(** C7, as stated, fails. The habit of [demo] has the completion dates 9
    and 10, so with today = 10 the earliest date is one day back; the loop
    has not met a missing day after one iteration, nor after two: it
    returns 2 in its third iteration. *)
Lemma streak_loop_exceeds_days_back :
  (9 ∈ completion_dates 1 demo ∧ ∀ d, d ∈ completion_dates 1 demo → 9 ≤ d)
  ∧ streak_loop (Z.to_nat (10 - 9)) (completion_dates 1 demo) 10 0 = None
  ∧ get_current_streak (Z.to_nat (10 - 9)) 10 1 demo = (OutOfFuel, after_guard demo)
  ∧ get_current_streak 2 10 1 demo = (OutOfFuel, after_guard demo)
  ∧ get_current_streak 3 10 1 demo = (Returned 2, after_guard demo).
Proof.
  split; [|repeat split; vm_compute; reflexivity].
  split; [rewrite demo_days; set_solver|]. apply demo_earliest.
Qed.

(** C7, amended. For every habit and every set of stored completions the
    loop of [get_current_streak] terminates. With [earliest] a date no later
    than any completion date of the habit, the loop meets a missing day
    within (today - earliest) + 2 iterations (within one iteration when that
    number is not positive), and the streak is at most (today - earliest)
    + 1; the loop runs streak + 1 iterations, so any fuel above the streak
    gives the same result. *)
Theorem get_current_streak_terminates fuel today habit_id earliest w :
  serviceable w →
  sqlite_int habit_id →
  (∀ d, d ∈ completion_dates habit_id w → earliest ≤ d) →
  (Z.to_nat (today - earliest + 1) < fuel)%nat →
  ∃ streak,
    get_current_streak fuel today habit_id w = (Returned streak, after_guard w)
    ∧ 0 ≤ streak ≤ Z.max 0 (today - earliest + 1)
    ∧ (∀ fuel', (Z.to_nat streak < fuel')%nat →
         get_current_streak fuel' today habit_id w = (Returned streak, after_guard w)).
Proof.
  intros Hw Hr Hlow Hfuel.
  assert (∀ f, get_current_streak f today habit_id w =
               (streak_of_days f today (completion_dates habit_id w), after_guard w)) as Hout
    by (intros f; apply get_current_streak_outcome; assumption).
  unfold streak_of_days in Hout. set (days := completion_dates habit_id w) in *.
  destruct (decide (days = ∅)) as [He|Hne].
  - exists 0. split; [apply Hout|]. split; [lia|]. intros f _. apply Hout.
  - destruct (streak_loop_above days today fuel 0 earliest Hlow) as [n Hn]; [lia|].
    exists n. split; [rewrite Hout, Hn; reflexivity|].
    destruct (streak_loop_sound _ _ _ _ _ Hn) as (Hle & Hrun & Hstop).
    split.
    + split; [exact Hle|]. destruct (decide (n = 0)) as [->|Hpos]; [lia|].
      assert (today - (n - 1) ∈ days) as Hlast by (apply Hrun; lia).
      apply Hlow in Hlast. lia.
    + intros f Hf. rewrite Hout.
      rewrite (streak_loop_complete days today f 0 n); [reflexivity|lia|exact Hrun|exact Hstop|lia].
Qed.

Lemma get_current_streak_terminates_witness :
  ∃ streak,
    get_current_streak 3 10 1 demo = (Returned streak, after_guard demo)
    ∧ 0 ≤ streak ≤ Z.max 0 (10 - 9 + 1)
    ∧ (∀ fuel', (Z.to_nat streak < fuel')%nat →
         get_current_streak fuel' 10 1 demo = (Returned streak, after_guard demo)).
Proof.
  apply (get_current_streak_terminates 3 10 1 9 demo serviceable_demo).
  - unfold sqlite_int. lia.
  - apply demo_earliest.
  - vm_compute. lia.
Defined.

Ltac world_done :=
  split; [first [left; reflexivity | right; reflexivity]|]; cbn;
  first [ let H := fresh in intros H; discriminate H
        | intros _; eexists; reflexivity ].

Lemma invoke_tables c w :
  flag_sound w →
  (tables_of (invoke c w) = tables_of w
   ∨ tables_of (invoke c w) = call_tables c (tables_of w))
  ∧ flag_sound (invoke c w).
Proof.
  intros Hs. unfold flag_sound in *.
  destruct w as [[] l [t|] [e|]]; cbn in Hs;
    try (exfalso; destruct (Hs eq_refl) as [? ?]; discriminate); clear Hs.
  all: destruct c as [now name description| |now habit_id| |habit_id|fuel today habit_id];
    cbn [invoke]; se_unfold; cbn [create_tables_if_not_exists call_tables].
  all: try match goal with |- context [decide (sqlite_int ?h)] =>
         destruct (decide (sqlite_int h)) end.
  all: try solve [world_done].
  all: try solve [match goal with |- context [habit_exists ?h ?t] =>
              let Hex := fresh "Hex" in
              destruct (habit_exists h t) eqn:Hex; cbn;
              unfold insert_completion; rewrite ?Hex; cbn
            end; world_done].
  all: match goal with |- context [select_distinct_days ?h ?t] =>
         destruct (select_distinct_days h t) as [|d rows] end;
       try solve [world_done].
  all: match goal with |- context [streak_loop ?f ?s ?t ?k] =>
         destruct (streak_loop f s t k) end; world_done.
Qed.

Lemma exec_tables e w :
  flag_sound w →
  (tables_of (exec e w) = tables_of w
   ∨ ∃ c, e = Invoke c ∧ tables_of (exec e w) = call_tables c (tables_of w))
  ∧ flag_sound (exec e w).
Proof.
  intros Hs. destruct e as [c|f|].
  - destruct (invoke_tables c w Hs) as [[Ht|Ht] Hs']; (split; [|exact Hs']);
      cbn [exec]; eauto.
  - split; [left; reflexivity|]. exact Hs.
  - split.
    + left. destruct w as [i l [t|] [e|]]; reflexivity.
    + destruct w as [i l [t|] [e|]]; intros H; cbn in *; discriminate H.
Qed.

Lemma run_snoc evs e w : run (evs ++ [e]) w = exec e (run evs w).
Proof. unfold run. rewrite foldl_app. reflexivity. Qed.

Lemma flag_sound_run evs : flag_sound (run evs fresh).
Proof.
  induction evs as [|e evs IH] using rev_ind; [intros H; discriminate H|].
  rewrite run_snoc. apply exec_tables, IH.
Qed.

Lemma call_tables_habits c t :
  habits (call_tables c t) =
    match c with
    | AddHabit now name description =>
        habits t ++ [mkHabit (next_rowid (habits_seq t) (h_id <$> habits t))
                       name description now true]
    | DeleteHabit habit_id => filter (λ h, h_id h ≠ habit_id) (habits t)
    | _ => habits t
    end.
Proof.
  destruct c; try reflexivity. cbn. unfold insert_completion.
  destruct (habit_exists habit_id t); reflexivity.
Qed.

Lemma call_tables_completions c t :
  habit_completions (call_tables c t) =
    match c with
    | CompleteHabit now habit_id =>
        if habit_exists habit_id t
        then habit_completions t ++
             [mkCompletion (next_rowid (habit_completions_seq t) (hc_id <$> habit_completions t))
                habit_id now]
        else habit_completions t
    | DeleteHabit habit_id =>
        if habit_exists habit_id t
        then filter (λ c, hc_habit_id c ≠ habit_id) (habit_completions t)
        else habit_completions t
    | _ => habit_completions t
    end.
Proof.
  destruct c; try reflexivity. cbn. unfold insert_completion.
  destruct (habit_exists habit_id t); reflexivity.
Qed.

Lemma habit_exists_true habit_id t :
  habit_exists habit_id t = true ↔ habit_id ∈ h_id <$> habits t.
Proof. unfold habit_exists. apply bool_decide_eq_true. Qed.

Lemma habit_exists_false habit_id t :
  habit_exists habit_id t = false ↔ habit_id ∉ h_id <$> habits t.
Proof. unfold habit_exists. apply bool_decide_eq_false. Qed.

Lemma elem_of_ids_filter habit_id i (hs : list Habit) :
  i ∈ h_id <$> hs → i ≠ habit_id → i ∈ h_id <$> filter (λ h, h_id h ≠ habit_id) hs.
Proof.
  intros Hi Hne. apply list_elem_of_fmap in Hi as (h & -> & Hh).
  apply list_elem_of_fmap_2, list_elem_of_filter. split; assumption.
Qed.

Lemma referential_integrity_call c t :
  referential_integrity t → referential_integrity (call_tables c t).
Proof.
  intros Hri x. rewrite call_tables_habits, call_tables_completions.
  destruct c as [now name description| |now habit_id| |habit_id|fuel today habit_id];
    try apply Hri.
  - intros Hx. rewrite fmap_app. apply elem_of_app. left. apply Hri, Hx.
  - destruct (habit_exists habit_id t) eqn:Hex; [|apply Hri].
    intros Hx. apply elem_of_app in Hx as [Hx|Hx]; [apply Hri, Hx|].
    apply list_elem_of_singleton in Hx as ->. cbn. apply habit_exists_true, Hex.
  - destruct (habit_exists habit_id t) eqn:Hex.
    + intros Hx. apply list_elem_of_filter in Hx as [Hne Hx].
      apply elem_of_ids_filter; [apply Hri, Hx|exact Hne].
    + intros Hx. apply elem_of_ids_filter; [apply Hri, Hx|].
      intros Heq. apply habit_exists_false in Hex. apply Hex. rewrite <- Heq. apply Hri, Hx.
Qed.

Lemma referential_integrity_run evs : referential_integrity (tables_of (run evs fresh)).
Proof.
  induction evs as [|e evs IH] using rev_ind.
  - intros c Hc. by apply elem_of_nil in Hc.
  - rewrite run_snoc.
    destruct (exec_tables e (run evs fresh) (flag_sound_run evs)) as [[->|(c & _ & ->)] _].
    + exact IH.
    + apply referential_integrity_call, IH.
Qed.

Lemma completion_created c call t :
  c ∈ habit_completions (call_tables call t) → (c ∉ habit_completions t) →
  ∃ now, call = CompleteHabit now (hc_habit_id c) ∧ hc_habit_id c ∈ h_id <$> habits t.
Proof.
  rewrite call_tables_completions. intros Hin Hout.
  destruct call as [now name description| |now habit_id| |habit_id|fuel today habit_id];
    try contradiction.
  - destruct (habit_exists habit_id t) eqn:Hex; [|contradiction].
    apply elem_of_app in Hin as [Hin|Hin]; [contradiction|].
    apply list_elem_of_singleton in Hin as ->. cbn.
    exists now. split; [reflexivity|]. apply habit_exists_true, Hex.
  - destruct (habit_exists habit_id t); [|contradiction].
    apply list_elem_of_filter in Hin as [_ Hin]. contradiction.
Qed.

Lemma completion_origin evs c :
  c ∈ stored_completions (run evs fresh) →
  ∃ evs1 evs2 now,
    evs = evs1 ++ Invoke (CompleteHabit now (hc_habit_id c)) :: evs2
    ∧ hc_habit_id c ∈ h_id <$> stored_habits (run evs1 fresh)
    ∧ (c ∉ stored_completions (run evs1 fresh))
    ∧ c ∈ stored_completions (run (evs1 ++ [Invoke (CompleteHabit now (hc_habit_id c))]) fresh).
Proof.
  induction evs as [|e evs IH] using rev_ind; [intros Hc; by apply elem_of_nil in Hc|].
  intros Hc.
  destruct (decide (c ∈ stored_completions (run evs fresh))) as [Hold|Hnew].
  - destruct (IH Hold) as (evs1 & evs2 & now & -> & Hrest).
    exists evs1, (evs2 ++ [e]), now. split; [|exact Hrest].
    rewrite <- app_assoc. reflexivity.
  - pose proof Hc as Hc'. rewrite run_snoc, <- completions_tables_of in Hc'.
    rewrite <- completions_tables_of in Hnew.
    destruct (exec_tables e (run evs fresh) (flag_sound_run evs)) as [[Heq|(call & -> & Heq)] _];
      rewrite Heq in Hc'; [contradiction|].
    destruct (completion_created _ _ _ Hc' Hnew) as (now & -> & Hex).
    exists evs, [], now. split; [reflexivity|].
    rewrite habits_tables_of in Hex. rewrite completions_tables_of in Hnew.
    split; [exact Hex|]. split; [exact Hnew|exact Hc].
Qed.

Lemma elem_of_select_completions r t :
  r ∈ select_completions t ↔
  ∃ c h, c ∈ habit_completions t ∧ h ∈ habits t ∧ hc_habit_id c = h_id h
         ∧ r = (hc_id c, h_name h, hc_completion_date c).
Proof.
  unfold select_completions. rewrite merge_sort_Permutation.
  unfold join_completions. rewrite list_elem_of_bind. split.
  - intros (c & Hr & Hc). apply list_elem_of_bind in Hr as (h & Hr & Hh).
    apply list_elem_of_filter in Hh as [Hid Hh].
    apply list_elem_of_singleton in Hr. eauto 10.
  - intros (c & h & Hc & Hh & Hid & ->). exists c. split; [|exact Hc].
    apply list_elem_of_bind. exists h. split; [apply list_elem_of_singleton; reflexivity|].
    apply list_elem_of_filter. split; assumption.
Qed.

Lemma returned_serviceable habit_id w msg w' :
  flag_sound w → delete_habit habit_id w = (Returned msg, w') → serviceable w.
Proof.
  intros Hs Hret. split; [|exact Hs].
  destruct w as [[] l t [e|]]; try reflexivity; discriminate Hret.
Qed.

Lemma returned_delete_in_range habit_id w msg w' :
  serviceable w → delete_habit habit_id w = (Returned msg, w') → sqlite_int habit_id.
Proof.
  intros Hw Hret. destruct (decide (sqlite_int habit_id)) as [Hr|Hr]; [exact Hr|].
  rewrite (delete_habit_overflow _ _ Hw Hr) in Hret. discriminate Hret.
Qed.

(** C6. In every state reached from an empty database, every stored
    completion belongs to a stored habit and was inserted by a
    [complete_habit] call made when a habit with that id was stored; when
    [delete_habit] returns, no habit and no completion with that id is left,
    and every row that [list_completions] then returns joins a stored
    completion with a stored habit other than the deleted one. *)
Theorem completions_reference_habits evs habit_id :
  (∀ c, c ∈ stored_completions (run evs fresh) →
     hc_habit_id c ∈ h_id <$> stored_habits (run evs fresh)
     ∧ ∃ evs1 evs2 now,
         evs = evs1 ++ Invoke (CompleteHabit now (hc_habit_id c)) :: evs2
         ∧ hc_habit_id c ∈ h_id <$> stored_habits (run evs1 fresh)
         ∧ (c ∉ stored_completions (run evs1 fresh))
         ∧ c ∈ stored_completions
                 (run (evs1 ++ [Invoke (CompleteHabit now (hc_habit_id c))]) fresh))
  ∧ (∀ msg w', delete_habit habit_id (run evs fresh) = (Returned msg, w') →
       (habit_id ∉ h_id <$> stored_habits w')
       ∧ (∀ c, c ∈ stored_completions w' → hc_habit_id c ≠ habit_id)
       ∧ ∃ rows, list_completions w' = (Returned rows, w')
           ∧ ∀ r, r ∈ rows →
               ∃ c h, c ∈ stored_completions w' ∧ h ∈ stored_habits w'
                      ∧ hc_habit_id c = h_id h ∧ h_id h ≠ habit_id
                      ∧ r = (hc_id c, h_name h, hc_completion_date c)).
Proof.
  pose proof (referential_integrity_run evs) as Hri.
  pose proof (flag_sound_run evs) as Hs.
  set (w := run evs fresh) in *. split.
  - intros c Hc. split; [|apply completion_origin, Hc].
    rewrite <- habits_tables_of. apply Hri. rewrite completions_tables_of. exact Hc.
  - intros msg w' Hret.
    pose proof (returned_serviceable _ _ _ _ Hs Hret) as Hw.
    pose proof (returned_delete_in_range _ _ _ _ Hw Hret) as Hr.
    rewrite (delete_habit_ok _ _ Hw Hr) in Hret. injection Hret as _ <-.
    set (t' := delete_habit_row true habit_id (tables_of w)).
    assert (habit_id ∉ h_id <$> habits t') as Hgone.
    { intros Hin. apply list_elem_of_fmap in Hin as (h & Hid & Hh).
      apply list_elem_of_filter in Hh as [Hne _]. congruence. }
    assert (∀ c, c ∈ habit_completions t' → hc_habit_id c ≠ habit_id) as Hcascade.
    { intros c Hc Heq.
      pose proof (referential_integrity_call (DeleteHabit habit_id) _ Hri c Hc) as Hin.
      rewrite Heq in Hin. exact (Hgone Hin). }
    assert (serviceable (set_store (Some t') (after_guard w))) as Hw'
      by apply serviceable_set_store, serviceable_after_guard, Hw.
    split; [exact Hgone|]. split; [exact Hcascade|].
    exists (select_completions t'). split.
    + rewrite (list_completions_ok _ Hw'). destruct w as [[] l s f]; reflexivity.
    + intros r Hrow. apply elem_of_select_completions in Hrow as (c & h & Hc & Hh & Hid & ->).
      exists c, h. repeat split; try assumption.
      rewrite <- Hid. apply Hcascade, Hc.
Qed.

Lemma completions_reference_habits_witness :
  (hc_habit_id (mkCompletion 2 1 864000) ∈ h_id <$> stored_habits demo)
  ∧ (1 ∉ h_id <$> stored_habits (delete_habit 1 demo).2)
  ∧ (∀ c, c ∈ stored_completions (delete_habit 1 demo).2 → hc_habit_id c ≠ 1).
Proof.
  destruct (completions_reference_habits demo_events 1) as [Hstored Hdelete]. split.
  - apply (Hstored (mkCompletion 2 1 864000)).
    apply (bool_decide_unpack _). vm_compute. exact I.
  - destruct (Hdelete "Habit 1 deleted successfully." (delete_habit 1 demo).2)
      as (Hgone & Hcascade & _); [vm_compute; reflexivity|].
    split; [exact Hgone|exact Hcascade].
Defined.

(** C5, as stated, fails: [add_habit] with the empty name returns its
    confirmation and stores a habit whose name is empty. *)
Lemma add_habit_stores_empty_name :
  ∃ w' h,
    add_habit 0 EmptyString EmptyString fresh = (Returned "Habit '' added successfully.", w')
    ∧ w' = run [Invoke (AddHabit 0 EmptyString EmptyString)] fresh
    ∧ stored_habits w' = [h]
    ∧ h_name h = EmptyString.
Proof. eexists _, _. repeat split. Qed.

Lemma habit_origin evs h :
  h ∈ stored_habits (run evs fresh) →
  ∃ now description, Invoke (AddHabit now (h_name h) description) ∈ evs.
Proof.
  induction evs as [|e evs IH] using rev_ind; [intros Hh; by apply elem_of_nil in Hh|].
  rewrite run_snoc, <- habits_tables_of. intros Hh.
  assert (h ∈ stored_habits (run evs fresh)
          ∨ ∃ now description, e = Invoke (AddHabit now (h_name h) description)) as [Hold|Hnew].
  { destruct (exec_tables e (run evs fresh) (flag_sound_run evs)) as [[Heq|(call & -> & Heq)] _];
      rewrite Heq in Hh; [left; rewrite <- habits_tables_of; exact Hh|].
    rewrite call_tables_habits, habits_tables_of in Hh.
    destruct call as [now name description| |now habit_id| |habit_id|fuel today habit_id];
      try (left; exact Hh).
    - apply elem_of_app in Hh as [Hh|Hh]; [left; exact Hh|].
      apply list_elem_of_singleton in Hh as ->. right. cbn. eauto.
    - apply list_elem_of_filter in Hh as [_ Hh]. left. exact Hh. }
  - destruct (IH Hold) as (now & description & Hin).
    exists now, description. apply elem_of_app. left. exact Hin.
  - destruct Hnew as (now & description & ->).
    exists now, description. apply elem_of_app. right. apply list_elem_of_singleton. reflexivity.
Qed.

(** C5, amended. [add_habit] checks nothing about the name: for every
    name, the empty one included, it stores one new habit row carrying that
    name and description and returns the confirmation; and in every state
    reached from an empty database the name of every stored habit is the
    name that some [add_habit] call was given. *)
Theorem habit_names_are_as_given evs now name description w :
  serviceable w →
  (∃ w' h,
     add_habit now name description w =
       (Returned ("Habit '" +:+ name +:+ "' added successfully."), w')
     ∧ stored_habits w' = stored_habits w ++ [h]
     ∧ stored_completions w' = stored_completions w
     ∧ h_name h = name ∧ h_description h = description ∧ h_is_active h = true
     ∧ (h_id h ∉ h_id <$> stored_habits w))
  ∧ (∀ h, h ∈ stored_habits (run evs fresh) →
       ∃ now' description', Invoke (AddHabit now' (h_name h) description') ∈ evs).
Proof.
  intros Hw. split; [|intros h; apply habit_origin].
  rewrite (add_habit_ok _ _ _ _ Hw). eexists _, _. split; [reflexivity|].
  cbn. rewrite habits_tables_of, completions_tables_of.
  repeat split; try reflexivity. apply next_rowid_fresh.
Qed.

Lemma habit_names_are_as_given_witness :
  (∃ w' h,
     add_habit 950000 EmptyString "no name" demo =
       (Returned "Habit '' added successfully.", w')
     ∧ stored_habits w' = stored_habits demo ++ [h]
     ∧ stored_completions w' = stored_completions demo
     ∧ h_name h = EmptyString ∧ h_description h = "no name" ∧ h_is_active h = true
     ∧ (h_id h ∉ h_id <$> stored_habits demo))
  ∧ (∃ now' description',
       Invoke (AddHabit now' (h_name (mkHabit 1 "Exercise" "daily" 777600 true)) description')
         ∈ demo_events).
Proof.
  destruct (habit_names_are_as_given demo_events 950000 EmptyString "no name" demo
              serviceable_demo) as [Hadd Hnames].
  split; [exact Hadd|]. apply Hnames.
  apply (bool_decide_unpack _). vm_compute. exact I.
Defined.

(** C9. When [init_db] raises inside the guard, the guard raises the same
    exception, [_db_initialized] stays unset and the store is as it was; a
    later call runs [init_db] again: it raises again while the store is
    unavailable, and once the store is available it creates the tables and
    only then sets the flag. The flag is never set by a call that raised. *)
Theorem failed_initialization_is_retried w e :
  db_initialized w = false → store_fault w = Some e →
  ∃ w',
    ensure_db_initialized w = (Raised e, w')
    ∧ db_initialized w' = false
    ∧ store w' = store w
    ∧ (∀ e', ∃ w'',
         ensure_db_initialized (set_store_fault (Some e') w') = (Raised e', w'')
         ∧ db_initialized w'' = false ∧ store w'' = store w)
    ∧ (∃ w'',
         ensure_db_initialized (set_store_fault None w') = (Returned tt, w'')
         ∧ db_initialized w'' = true
         ∧ store w'' = Some (create_tables_if_not_exists (store w)))
    ∧ (∀ w0, db_initialized w0 = false →
         db_initialized (ensure_db_initialized w0).2 = true →
         (ensure_db_initialized w0).1 = Returned tt
         ∧ is_Some (store (ensure_db_initialized w0).2)).
Proof.
  intros Hflag Hfault. rewrite (ensure_db_initialized_raises _ _ Hflag Hfault).
  eexists. split; [reflexivity|].
  destruct w as [i l s f]; cbn in Hflag, Hfault; subst.
  split; [reflexivity|]. split; [reflexivity|]. split; [|split].
  - intros e'. eexists. split; [reflexivity|]. split; reflexivity.
  - eexists. split; [reflexivity|]. split; reflexivity.
  - intros [i0 l0 s0 [e0|]] Hi; cbn in Hi; subst i0.
    + intros H. discriminate H.
    + intros _. split; [reflexivity|]. cbn. eauto.
Qed.

Lemma failed_initialization_is_retried_witness :
  ∃ w',
    ensure_db_initialized (set_store_fault (Some (OperationalError "unable to open database file")) fresh)
      = (Raised (OperationalError "unable to open database file"), w')
    ∧ db_initialized w' = false.
Proof.
  destruct (failed_initialization_is_retried
              (set_store_fault (Some (OperationalError "unable to open database file")) fresh)
              (OperationalError "unable to open database file") eq_refl eq_refl)
    as (w' & Hraise & Hflag & _).
  exists w'. split; [exact Hraise|exact Hflag].
Defined.

(** The streak scenarios of the specification, run on the model. *)
Example streak_only_today :
  (get_current_streak 5 10 1
     (run [Invoke (AddHabit 864000 "Read" "pages"); Invoke (CompleteHabit 864000 1)] fresh)).1
  = Returned 1.
Proof. vm_compute. reflexivity. Qed.

Example streak_with_gap :
  (get_current_streak 5 10 1
     (run [Invoke (AddHabit 600000 "Read" "pages");
           Invoke (CompleteHabit 604800 1);
           Invoke (CompleteHabit 777600 1);
           Invoke (CompleteHabit 864000 1)] fresh)).1
  = Returned 2.
Proof. vm_compute. reflexivity. Qed.

Example streak_next_day_without_completion :
  (get_current_streak 5 10 1 demo).1 = Returned 2
  ∧ (get_current_streak 5 11 1 demo).1 = Returned 0
  ∧ length (stored_completions demo) = 3%nat.
Proof. vm_compute. repeat split; reflexivity. Qed.

End ServiceFacts.

(** ** Properties of the concurrent guard *)

Module GuardFacts.
Import Guard.
Local Open Scope nat_scope.

Lemma holders_insert (ps : list pc) (i : nat) (p q : pc) :
  ps !! i = Some p →
  holders (<[i:=q]> ps) + (if in_init_db p then 1 else 0)
  = holders ps + (if in_init_db q then 1 else 0).
Proof.
  revert i. induction ps as [|x ps IH]; intros [|i] Hi; try discriminate Hi.
  - injection Hi as ->. change (<[0:=q]> (p :: ps)) with (q :: ps). cbn [holders].
    destruct (in_init_db p), (in_init_db q); lia.
  - change ((x :: ps) !! S i) with (ps !! i) in Hi. specialize (IH i Hi).
    change (<[S i:=q]> (x :: ps)) with (x :: <[i:=q]> ps). cbn [holders].
    destruct (in_init_db p), (in_init_db q), (in_init_db x); lia.
Qed.

Lemma holders_replicate_called n : holders (replicate n Called) = 0.
Proof. induction n as [|n IH]; [reflexivity|exact IH]. Qed.

Lemma lookup_with_call_ready (ps : list pc) (i : nat) (p q : pc) (j : nat) :
  ps !! i = Some p → <[i:=q]> ps !! j = Some Ready →
  (j = i ∧ q = Ready) ∨ ps !! j = Some Ready.
Proof.
  intros Hi Hj. destruct (decide (i = j)) as [->|Hne].
  - rewrite list_lookup_insert_eq in Hj by (eapply lookup_lt_Some, Hi).
    left. split; [reflexivity|congruence].
  - rewrite list_lookup_insert_ne in Hj by exact Hne. right. exact Hj.
Qed.

Lemma invariant_boot tables n : invariant tables (boot tables n).
Proof.
  split; cbn; try reflexivity; try discriminate.
  - apply holders_replicate_called.
  - intros i Hi. apply lookup_replicate in Hi as [Hi _]. discriminate Hi.
  - destruct tables; reflexivity.
  - intros ->. reflexivity.
Qed.

Ltac guard_field ps i Hi :=
  cbn;
  first
    [ assumption
    | reflexivity
    | discriminate
    | intros _; reflexivity
    | intros _; assumption
    | let H := fresh in intros H; discriminate H
    | match goal with
      | |- holders (<[i:=?q]> ps) = _ =>
          let X := fresh in
          pose proof (holders_insert ps i _ q Hi) as X; cbn [in_init_db] in X; lia
      end
    | match goal with
      | H4 : ∀ k, ps !! k = Some Ready → _ |- ∀ j, _ → _ =>
          let j := fresh "j" in let Hj := fresh "Hj" in
          intros j Hj;
          destruct (lookup_with_call_ready _ _ _ _ _ Hi Hj) as [[_ ?]|?];
          [ first [discriminate | reflexivity] | eauto ]
      end
    | lia ].

Lemma invariant_import_step tables ch c :
  invariant tables c → invariant tables (import_step ch c).
Proof.
  intros [H1 H2 H3 H4 H5 H6 H7 H8].
  destruct c as [flag lock sch gr ir tc imp ps]. unfold import_step. cbn in *.
  destruct imp; try (split; assumption).
  destruct ch, tables, sch; split; cbn;
    try assumption; try reflexivity; try lia; try (intros _; reflexivity);
    try discriminate (H8 eq_refl).
Qed.

Lemma holder_holds_lock (ps : list pc) (i : nat) :
  ps !! i = Some InitDb → 1 ≤ holders ps.
Proof.
  intros Hi. pose proof (holders_insert ps i _ Called Hi) as X.
  cbn [in_init_db] in X. lia.
Qed.

Lemma invariant_call_step tables i ch c :
  invariant tables c → invariant tables (call_step i ch c).
Proof.
  intros [H1 H2 H3 H4 H5 H6 H7 H8].
  destruct c as [flag lock sch gr ir tc imp ps]. unfold call_step. cbn in *.
  destruct (ps !! i) as [p|] eqn:Hi; [|split; assumption].
  destruct p; try (split; assumption).
  - destruct flag, lock; try discriminate (H3 eq_refl); destruct ch;
      split; guard_field ps i Hi.
  - destruct flag, lock; try discriminate (H3 eq_refl);
      split; guard_field ps i Hi.
  - pose proof (holder_holds_lock ps i Hi) as Hheld.
    destruct lock; [|lia]. rewrite (H3 eq_refl) in *.
    destruct ch, tables, sch; try discriminate (H8 eq_refl);
      split; guard_field ps i Hi.
Qed.

Lemma invariant_run tables n ms : invariant tables (run_schedule ms (boot tables n)).
Proof.
  induction ms as [|m ms IH] using rev_ind; [apply invariant_boot|].
  unfold run_schedule. rewrite foldl_app. cbn.
  destruct m; [apply invariant_import_step|apply invariant_call_step]; exact IH.
Qed.


(** X20. What the guard itself ensures. For every number of concurrent
    calls of the guard and every interleaving, the guard completes
    [init_db] at most once, and exactly once by the time any call has
    returned; a call returns only after that run has completed, with the
    flag set and the tables in place; and a call that starts once the flag
    is set only tests the flag and returns, leaving the globals as they are.
    The import of the module adds at most one run of [init_db] outside the
    guard, so the process runs it at most twice. The tables themselves are
    created at most once: not at all when the database file already has
    them, and exactly once, by the time a call has returned, when it does
    not. *)
Theorem guard_runs_init_db_once (tables : bool) (n : nat) (ms : list move) :
  let c := run_schedule ms (boot tables n) in
  guard_runs c ≤ 1
  ∧ init_db_runs c ≤ 2
  ∧ tables_created c ≤ 1
  ∧ (tables = true → tables_created c = 0)
  ∧ (∀ i, calls c !! i = Some Ready →
       guard_runs c = 1 ∧ db_initialized c = true ∧ schema c = true
       ∧ (tables = false → tables_created c = 1))
  ∧ (∀ i ch, db_initialized c = true → calls c !! i = Some Called →
       step (RunCall i ch) c = with_call i Ready c).
Proof.
  intros c. destruct (invariant_run tables n ms) as [H1 H2 H3 H4 H5 H6 H7 H8].
  fold c in H1, H2, H3, H4, H5, H6, H7, H8.
  split; [rewrite H1; destruct (db_initialized c); lia|].
  split; [unfold init_db_runs; rewrite H1, H6;
          destruct (db_initialized c), (import c); lia|].
  split; [rewrite H7; destruct tables, (schema c); lia|].
  split; [intros ->; exact H7|].
  split.
  - intros i Hi. pose proof (H4 i Hi) as Hflag.
    rewrite H1, Hflag. split; [reflexivity|]. split; [reflexivity|].
    split; [apply H5, Hflag|]. intros ->. rewrite H7, (H5 Hflag). reflexivity.
  - intros i ch Hflag Hi. cbn. unfold call_step. rewrite Hi, Hflag. reflexivity.
Qed.

(** A failing [init_db] leaves the guard open: the call ends with the
    exception, the lock is free and the flag unset, so the next call that
    runs enters [init_db] again. *)
Lemma failed_init_db_leaves_guard_open (e : exn) :
  let c := run_schedule [RunCall 0 Go; RunCall 1 Go; RunCall 0 (InitFails e)] (boot false 2) in
  calls c = [Failed e; Acquiring]
  ∧ db_initialized c = false ∧ lock_held c = false ∧ guard_runs c = 0
  ∧ calls (step (RunCall 1 Go) c) = [Failed e; InitDb].
Proof. repeat split. Qed.

(** Three calls race for the lock before the import task has run, and a
    fourth starts after the flag is set. *)
Lemma guard_runs_init_db_once_witness :
  let c := run_schedule
             [RunCall 0 Go; RunCall 1 Go; RunCall 2 Queue; RunImport Go;
              RunCall 0 Go; RunCall 1 Go; RunCall 2 Go] (boot false 4) in
  (guard_runs c = 1 ∧ db_initialized c = true ∧ schema c = true ∧ tables_created c = 1)
  ∧ step (RunCall 3 Go) c = with_call 3 Ready c.
Proof.
  intros c.
  destruct (guard_runs_init_db_once false 4
              [RunCall 0 Go; RunCall 1 Go; RunCall 2 Queue; RunImport Go;
               RunCall 0 Go; RunCall 1 Go; RunCall 2 Go])
    as (_ & _ & _ & _ & Hready & Hlate).
  split.
  - destruct (Hready 0 eq_refl) as (H1 & H2 & H3 & H4).
    split; [exact H1|]. split; [exact H2|]. split; [exact H3|apply H4; reflexivity].
  - apply (Hlate 3 Go); reflexivity.
Defined.

End GuardFacts.

(** ** Further properties of the sequential service *)

Module ServiceExtras.
Import Store Service Trace ServiceFacts.

Lemma foldr_max_le (ids : list Z) b : 0 ≤ b → (∀ i, i ∈ ids → i ≤ b) → foldr Z.max 0 ids ≤ b.
Proof.
  intros Hb. induction ids as [|x ids IH]; intros Hall; cbn; [exact Hb|].
  assert (x ≤ b) by (apply Hall, elem_of_cons; left; reflexivity).
  assert (foldr Z.max 0 ids ≤ b) by (apply IH; intros i Hi; apply Hall, elem_of_cons; right; exact Hi).
  lia.
Qed.

Lemma next_rowid_sound seq ids :
  0 ≤ seq → ids_sound seq ids → next_rowid seq ids = seq + 1.
Proof.
  intros Hseq [_ Hb]. unfold next_rowid.
  pose proof (foldr_max_le ids seq Hseq (λ i Hi, proj2 (Hb i Hi))). lia.
Qed.

Lemma ids_sound_seq_nonneg seq ids : ids_sound seq ids → ids = [] ∨ 1 ≤ seq.
Proof.
  intros [_ Hb]. destruct ids as [|x ids]; [left; reflexivity|right].
  assert (1 ≤ x ≤ seq) by (apply Hb, elem_of_cons; left; reflexivity). lia.
Qed.

Lemma ids_sound_snoc seq ids :
  0 ≤ seq → ids_sound seq ids →
  ids_sound (next_rowid seq ids) (ids ++ [next_rowid seq ids]).
Proof.
  intros Hseq Hs. rewrite (next_rowid_sound _ _ Hseq Hs). destruct Hs as [Hnd Hb]. split.
  - apply NoDup_app. split; [exact Hnd|]. split; [|apply NoDup_singleton].
    intros i Hi Hi'. apply list_elem_of_singleton in Hi'. apply Hb in Hi. lia.
  - intros i Hi. apply elem_of_app in Hi as [Hi|Hi].
    + apply Hb in Hi. lia.
    + apply list_elem_of_singleton in Hi. lia.
Qed.

Lemma ids_sound_filter {A} (f : A → Z) (P : A → Prop) `{!∀ x, Decision (P x)} seq (l : list A) :
  ids_sound seq (f <$> l) → ids_sound seq (f <$> filter P l).
Proof.
  intros [Hnd Hb]. split.
  - clear Hb. revert Hnd. induction l as [|x l IH]; [intros _; constructor|].
    rewrite fmap_cons, NoDup_cons. intros [Hx Hnd]. rewrite filter_cons.
    destruct (decide (P x)); [|apply IH, Hnd].
    rewrite fmap_cons. apply NoDup_cons. split; [|apply IH, Hnd].
    intros Hin. apply Hx. apply list_elem_of_fmap in Hin as (y & -> & Hy).
    apply list_elem_of_filter in Hy as [_ Hy]. apply list_elem_of_fmap_2, Hy.
  - intros i Hi. apply Hb. apply list_elem_of_fmap in Hi as (y & -> & Hy).
    apply list_elem_of_filter in Hy as [_ Hy]. apply list_elem_of_fmap_2, Hy.
Qed.

Lemma tables_sound_call c t :
  seqs_nonneg t → tables_sound t →
  seqs_nonneg (call_tables c t) ∧ tables_sound (call_tables c t)
  ∧ habits_seq t ≤ habits_seq (call_tables c t).
Proof.
  intros [Hh Hc] [Sh Sc].
  destruct c as [now name description| |now habit_id| |habit_id|fuel today habit_id];
    cbn [call_tables];
    try (split; [split; assumption|]; split; [split; assumption|lia]).
  - pose proof (next_rowid_sound _ _ Hh Sh) as Hn.
    unfold insert_habit, seqs_nonneg, tables_sound. cbn.
    split; [split; [lia|exact Hc]|]. split; [|lia].
    split; [|exact Sc]. rewrite fmap_app. cbn. apply (ids_sound_snoc _ _ Hh Sh).
  - unfold insert_completion. cbn. destruct (habit_exists habit_id t);
      cbn; [|split; [split; assumption|]; split; [split; assumption|lia]].
    pose proof (next_rowid_sound _ _ Hc Sc) as Hn.
    unfold seqs_nonneg, tables_sound. cbn.
    split; [split; [exact Hh|lia]|]. split; [|lia].
    split; [exact Sh|]. rewrite fmap_app. cbn. apply (ids_sound_snoc _ _ Hc Sc).
  - unfold seqs_nonneg, tables_sound. cbn.
    split; [split; assumption|]. split; [|lia].
    split; [apply ids_sound_filter, Sh|].
    destruct (habit_exists habit_id t); [apply ids_sound_filter, Sc|exact Sc].
Qed.

Lemma tables_sound_run evs :
  seqs_nonneg (tables_of (run evs fresh)) ∧ tables_sound (tables_of (run evs fresh)).
Proof.
  induction evs as [|e evs IH] using rev_ind.
  - split; [split; cbn; lia|]. split; (split; [constructor|]);
      intros i Hi; by apply elem_of_nil in Hi.
  - rewrite run_snoc.
    destruct (exec_tables e (run evs fresh) (flag_sound_run evs)) as [[->|(c & _ & ->)] _];
      [exact IH|].
    destruct IH as [Hn Hs]. destruct (tables_sound_call c _ Hn Hs) as (? & ? & _).
    split; assumption.
Qed.

Lemma old_ids_are_old_rows evs1 evs2 :
  habits_seq (tables_of (run evs1 fresh)) ≤ habits_seq (tables_of (run (evs1 ++ evs2) fresh))
  ∧ ∀ h, h ∈ stored_habits (run (evs1 ++ evs2) fresh) →
         h_id h ≤ habits_seq (tables_of (run evs1 fresh)) →
         h ∈ stored_habits (run evs1 fresh).
Proof.
  induction evs2 as [|e evs2 IH] using rev_ind.
  - rewrite app_nil_r. split; [lia|]. intros h Hh _. exact Hh.
  - rewrite app_assoc, run_snoc. set (w := run (evs1 ++ evs2) fresh) in *.
    destruct IH as [Hseq Hold].
    destruct (exec_tables e w (flag_sound_run _)) as [[Heq|(c & _ & Heq)] _].
    + rewrite <- (habits_tables_of (exec e w)), Heq, habits_tables_of. split; assumption.
    + destruct (tables_sound_run (evs1 ++ evs2)) as [Hn Hs]. fold w in Hn, Hs.
      destruct (tables_sound_call c _ Hn Hs) as (_ & _ & Hmono).
      rewrite <- (habits_tables_of (exec e w)), Heq. split; [lia|].
      intros h Hh Hid. rewrite call_tables_habits in Hh.
      destruct c as [now name description| |now habit_id| |habit_id|fuel today habit_id];
        try (apply Hold; [rewrite <- habits_tables_of; exact Hh|exact Hid]).
      * apply elem_of_app in Hh as [Hh|Hh];
          [apply Hold; [rewrite <- habits_tables_of; exact Hh|exact Hid]|].
        apply list_elem_of_singleton in Hh as ->. cbn in Hid.
        rewrite (next_rowid_sound _ _ (proj1 Hn) (proj1 Hs)) in Hid. lia.
      * apply list_elem_of_filter in Hh as [_ Hh].
        apply Hold; [rewrite <- habits_tables_of; exact Hh|exact Hid].
Qed.

(** X1. Habit and completion ids are pairwise distinct in every state
    reached from an empty database, habit ids are positive and at most the
    AUTOINCREMENT counter, and ids are never reused: a habit stored later
    under an id the counter had already passed is a row of the earlier
    state, unchanged, so the id of a deleted habit never comes back. *)
Theorem habit_ids_are_never_reused evs1 evs2 :
  NoDup (h_id <$> stored_habits (run (evs1 ++ evs2) fresh))
  ∧ NoDup (hc_id <$> stored_completions (run (evs1 ++ evs2) fresh))
  ∧ (∀ h, h ∈ stored_habits (run evs1 fresh) →
       1 ≤ h_id h ≤ habits_seq (tables_of (run evs1 fresh)))
  ∧ (∀ h, h ∈ stored_habits (run (evs1 ++ evs2) fresh) →
       h_id h ≤ habits_seq (tables_of (run evs1 fresh)) →
       h ∈ stored_habits (run evs1 fresh))
  ∧ (∀ h evs3, h ∈ stored_habits (run evs1 fresh) →
       (h_id h ∉ h_id <$> stored_habits (run (evs1 ++ evs2) fresh)) →
       h_id h ∉ h_id <$> stored_habits (run ((evs1 ++ evs2) ++ evs3) fresh)).
Proof.
  destruct (tables_sound_run (evs1 ++ evs2)) as [_ [[Hnd _] [Hnd' _]]].
  destruct (tables_sound_run evs1) as [_ [[_ Hb] _]].
  rewrite habits_tables_of in Hnd, Hb. rewrite completions_tables_of in Hnd'.
  destruct (old_ids_are_old_rows evs1 evs2) as [Hseq Hold].
  split; [exact Hnd|]. split; [exact Hnd'|].
  split; [intros h Hh; apply Hb, list_elem_of_fmap_2, Hh|]. split; [exact Hold|].
  intros h evs3 Hh Hgone Hback.
  apply list_elem_of_fmap in Hback as (h' & Hid & Hh').
  destruct (old_ids_are_old_rows (evs1 ++ evs2) evs3) as [_ Hold'].
  apply Hgone. rewrite Hid. apply list_elem_of_fmap_2, Hold'; [exact Hh'|].
  rewrite <- Hid. pose proof (Hb (h_id h) (list_elem_of_fmap_2 _ _ _ Hh)). lia.
Qed.

Lemma habit_ids_are_never_reused_witness :
  1 ∉ h_id <$> stored_habits
        (run ((demo_events ++ [Invoke (DeleteHabit 1)])
              ++ [Invoke (AddHabit 950000 "Exercise" "again")]) fresh).
Proof.
  destruct (habit_ids_are_never_reused demo_events [Invoke (DeleteHabit 1)])
    as (_ & _ & _ & _ & Hnever).
  apply (Hnever (mkHabit 1 "Exercise" "daily" 777600 true)
           [Invoke (AddHabit 950000 "Exercise" "again")]).
  - apply (bool_decide_unpack _). vm_compute. exact I.
  - apply (bool_decide_unpack _). vm_compute. exact I.
Defined.

Global Instance later_first_total : Total later_first.
Proof. intros r1 r2. unfold later_first. lia. Qed.

Lemma one_parent (hs : list Habit) (i : Z) :
  NoDup (h_id <$> hs) → i ∈ h_id <$> hs →
  length (filter (λ h, i = h_id h) hs) = 1%nat.
Proof.
  induction hs as [|h hs IH]; [intros _ Hi; by apply elem_of_nil in Hi|].
  rewrite fmap_cons, NoDup_cons. intros [Hh Hnd] Hi. rewrite filter_cons.
  destruct (decide (i = h_id h)) as [->|Hne].
  - cbn. f_equal. apply length_zero_iff_nil.
    destruct (filter (λ h0, h_id h = h_id h0) hs) as [|h' l] eqn:Hf; [reflexivity|].
    exfalso. assert (h' ∈ filter (λ h0, h_id h = h_id h0) hs) as Hin
      by (rewrite Hf; apply elem_of_cons; left; reflexivity).
    apply list_elem_of_filter in Hin as [Heq Hin]. apply Hh. rewrite Heq.
    apply list_elem_of_fmap_2, Hin.
  - apply IH; [exact Hnd|]. apply elem_of_cons in Hi as [Hi|Hi]; [contradiction|exact Hi].
Qed.

Lemma join_rows_length (hs : list Habit) (cs : list Completion) :
  NoDup (h_id <$> hs) → (∀ c, c ∈ cs → hc_habit_id c ∈ h_id <$> hs) →
  length (cs ≫= λ c, filter (λ h, hc_habit_id c = h_id h) hs
                      ≫= λ h, [(hc_id c, h_name h, hc_completion_date c)])
  = length cs.
Proof.
  intros Hnd.
  assert (∀ c (l : list Habit),
            length (l ≫= λ h, [(hc_id c, h_name h, hc_completion_date c)]) = length l) as Hl.
  { intros c. induction l as [|x l IHl]; [reflexivity|].
    rewrite bind_cons, length_app, IHl. reflexivity. }
  induction cs as [|c cs IH]; intros Hri; [reflexivity|].
  rewrite bind_cons, length_app, IH.
  - rewrite Hl, one_parent; [reflexivity|exact Hnd|].
    apply Hri, elem_of_cons. left. reflexivity.
  - intros c' Hc'. apply Hri, elem_of_cons. right. exact Hc'.
Qed.

Lemma join_completions_length t :
  referential_integrity t → NoDup (h_id <$> habits t) →
  length (join_completions t) = length (habit_completions t).
Proof. intros Hri Hnd. apply join_rows_length; assumption. Qed.

(** X2. In every state reached from an empty database, when the store is
    reachable [list_completions] returns, most recent completion first,
    exactly one row per stored completion: its id, the name of its habit and
    its timestamp. *)
Theorem list_completions_rows evs :
  store_fault (run evs fresh) = None →
  ∃ rows w',
    list_completions (run evs fresh) = (Returned rows, w')
    ∧ Sorted later_first rows
    ∧ length rows = length (stored_completions (run evs fresh))
    ∧ (∀ r, r ∈ rows ↔
         ∃ c h, c ∈ stored_completions (run evs fresh)
                ∧ h ∈ stored_habits (run evs fresh)
                ∧ hc_habit_id c = h_id h
                ∧ r = (hc_id c, h_name h, hc_completion_date c)).
Proof.
  intros Hf. set (w := run evs fresh) in *.
  assert (serviceable w) as Hw by (split; [exact Hf|apply flag_sound_run]).
  rewrite (list_completions_ok _ Hw). eexists _, _. split; [reflexivity|].
  split; [apply Sorted_merge_sort, _|]. split.
  - unfold select_completions. rewrite merge_sort_Permutation.
    rewrite join_completions_length, completions_tables_of; [reflexivity| |].
    + apply referential_integrity_run.
    + destruct (tables_sound_run evs) as [_ [[Hnd _] _]]. exact Hnd.
  - intros r. rewrite elem_of_select_completions, habits_tables_of, completions_tables_of.
    reflexivity.
Qed.

Lemma list_completions_rows_witness :
  ∃ rows w',
    list_completions demo = (Returned rows, w')
    ∧ Sorted later_first rows
    ∧ length rows = length (stored_completions demo).
Proof.
  destruct (list_completions_rows demo_events eq_refl) as (rows & w' & H1 & H2 & H3 & _).
  exists rows, w'. split; [exact H1|]. split; [exact H2|exact H3].
Defined.

(** X3. In every state reached from an empty database (tool calls, store
    outages, process restarts), while the store is reachable no tool raises
    when the habit id it is given fits a 64-bit signed integer: the guard
    has created the tables before any statement runs, so "no such table"
    cannot occur; [get_current_streak] returns as soon as its fuel exceeds
    the number of distinct completion dates. *)
Theorem tools_return_when_store_reachable evs now name description habit_id today fuel :
  store_fault (run evs fresh) = None →
  sqlite_int habit_id →
  (size (completion_dates habit_id (run evs fresh)) < fuel)%nat →
  returns (add_habit now name description (run evs fresh))
  ∧ returns (list_habits (run evs fresh))
  ∧ returns (complete_habit now habit_id (run evs fresh))
  ∧ returns (list_completions (run evs fresh))
  ∧ returns (delete_habit habit_id (run evs fresh))
  ∧ returns (get_current_streak fuel today habit_id (run evs fresh)).
Proof.
  intros Hf Hr Hfuel. set (w := run evs fresh) in *.
  assert (serviceable w) as Hw by (split; [exact Hf|apply flag_sound_run]).
  unfold returns.
  rewrite (add_habit_ok _ _ _ _ Hw), (list_habits_ok _ Hw), (list_completions_ok _ Hw),
    (delete_habit_ok _ _ Hw Hr), (get_current_streak_outcome _ _ _ _ Hw Hr).
  repeat split; try (eexists; reflexivity).
  - destruct (habit_exists habit_id (tables_of w)) eqn:Hex.
    + rewrite (complete_habit_found _ _ _ Hw Hr Hex). eexists; reflexivity.
    + rewrite (complete_habit_missing _ _ _ Hw Hr Hex). eexists; reflexivity.
  - cbn [fst]. unfold streak_of_days.
    destruct (decide (completion_dates habit_id w = ∅)); [eexists; reflexivity|].
    destruct (streak_loop_terminates (completion_dates habit_id w) today fuel 0) as [streak ->].
    + pose proof (size_filter_le (λ d, d ≤ today - 0) (completion_dates habit_id w)). lia.
    + eexists; reflexivity.
Qed.

Lemma tools_return_when_store_reachable_witness :
  returns (complete_habit 950000 1 (run (demo_events ++ [Boot; Invoke (DeleteHabit 1)]) fresh))
  ∧ returns (get_current_streak 1 10 1 (run (demo_events ++ [Boot; Invoke (DeleteHabit 1)]) fresh)).
Proof.
  destruct (tools_return_when_store_reachable
              (demo_events ++ [Boot; Invoke (DeleteHabit 1)])
              950000 "x" "y" 1 10 1 eq_refl) as (_ & _ & Hc & _ & _ & Hs).
  - unfold sqlite_int. lia.
  - vm_compute. lia.
  - split; [exact Hc|exact Hs].
Defined.

(** X4. While the store rejects connections, every tool raises the store's
    exception itself, whether the flag is set or not, and the stored rows
    stay as they were. *)
Theorem tools_propagate_store_errors e now name description habit_id today fuel w :
  store_fault w = Some e →
  ((add_habit now name description w).1 = Raised e
   ∧ (list_habits w).1 = Raised e
   ∧ (complete_habit now habit_id w).1 = Raised e
   ∧ (list_completions w).1 = Raised e
   ∧ (delete_habit habit_id w).1 = Raised e
   ∧ (get_current_streak fuel today habit_id w).1 = Raised e)
  ∧ (store (add_habit now name description w).2 = store w
     ∧ store (complete_habit now habit_id w).2 = store w
     ∧ store (delete_habit habit_id w).2 = store w).
Proof.
  destruct w as [[] l s f]; cbn; intros ->; repeat split; reflexivity.
Qed.

Lemma tools_propagate_store_errors_witness :
  (complete_habit 950000 1 (set_store_fault (Some (OperationalError "disk I/O error")) demo)).1
  = Raised (OperationalError "disk I/O error").
Proof.
  destruct (tools_propagate_store_errors (OperationalError "disk I/O error")
              950000 "x" "y" 1 10 3
              (set_store_fault (Some (OperationalError "disk I/O error")) demo) eq_refl)
    as [(_ & _ & Hc & _) _].
  exact Hc.
Defined.

(** X5. [init_db] creates the tables only where they are missing: it keeps
    every stored row and the flag, and running it again changes nothing. *)
Theorem init_db_is_idempotent w :
  store_fault w = None →
  ∃ w',
    init_db w = (Returned tt, w')
    ∧ is_Some (store w')
    ∧ stored_habits w' = stored_habits w
    ∧ stored_completions w' = stored_completions w
    ∧ db_initialized w' = db_initialized w
    ∧ init_db w' = (Returned tt, w').
Proof.
  destruct w as [i l [t|] f]; cbn; intros ->; eexists; repeat split; cbn; eauto.
Qed.

Lemma init_db_is_idempotent_witness :
  ∃ w', init_db demo = (Returned tt, w') ∧ init_db w' = (Returned tt, w')
        ∧ stored_completions w' = stored_completions demo.
Proof.
  destruct (init_db_is_idempotent demo eq_refl) as (w' & H1 & _ & _ & H4 & _ & H6).
  exists w'. split; [exact H1|]. split; [exact H6|exact H4].
Defined.

(** X6. Once [ensure_db_initialized] has returned, every later call of it
    in the same process returns at once without opening a connection: it
    changes nothing and succeeds even while the store is unreachable. *)
Theorem guard_is_idempotent w f :
  returns (ensure_db_initialized w) →
  db_initialized (ensure_db_initialized w).2 = true
  ∧ ensure_db_initialized (set_store_fault f (ensure_db_initialized w).2)
    = (Returned tt, set_store_fault f (ensure_db_initialized w).2).
Proof.
  intros [a Ha]. destruct w as [[] l s [e|]]; try (split; reflexivity).
  cbn in Ha. discriminate Ha.
Qed.

Lemma guard_is_idempotent_witness :
  ensure_db_initialized
    (set_store_fault (Some (OperationalError "disk I/O error")) (ensure_db_initialized fresh).2)
  = (Returned tt,
     set_store_fault (Some (OperationalError "disk I/O error")) (ensure_db_initialized fresh).2).
Proof.
  apply (guard_is_idempotent fresh (Some (OperationalError "disk I/O error"))).
  exists tt. reflexivity.
Defined.

(** X7. A restart keeps the data: the import of the module in a new process
    resets the flag and the lock and runs [init_db], which leaves every
    stored row in place, so the three reading tools return after the restart
    what they returned before it. *)
Theorem restart_keeps_the_data fuel today habit_id w :
  serviceable w →
  db_initialized (exec Boot w) = false
  ∧ stored_habits (exec Boot w) = stored_habits w
  ∧ stored_completions (exec Boot w) = stored_completions w
  ∧ (list_habits (exec Boot w)).1 = (list_habits w).1
  ∧ (list_completions (exec Boot w)).1 = (list_completions w).1
  ∧ (get_current_streak fuel today habit_id (exec Boot w)).1
    = (get_current_streak fuel today habit_id w).1.
Proof.
  intros Hw.
  assert (serviceable (exec Boot w)) as Hb.
  { destruct Hw as [Hf _]. destruct w as [i l s f]; cbn in Hf; subst f.
    split; [reflexivity|]. intros H. discriminate H. }
  assert (tables_of (exec Boot w) = tables_of w) as Ht.
  { destruct Hw as [Hf _]. destruct w as [i l [t|] f]; cbn in Hf; subst f; reflexivity. }
  assert (stored_habits (exec Boot w) = stored_habits w) as Hh
    by (rewrite <- !habits_tables_of, Ht; reflexivity).
  assert (stored_completions (exec Boot w) = stored_completions w) as Hc
    by (rewrite <- !completions_tables_of, Ht; reflexivity).
  split; [destruct w as [i l s [e|]]; reflexivity|].
  split; [exact Hh|]. split; [exact Hc|].
  rewrite !list_habits_ok, !list_completions_ok, !get_current_streak_result by assumption.
  cbn [fst]. rewrite Hh, Ht. unfold streak_outcome, completion_dates. rewrite Hc. repeat split.
Qed.

Lemma restart_keeps_the_data_witness :
  (get_current_streak 3 10 1 (exec Boot demo)).1 = (get_current_streak 3 10 1 demo).1.
Proof.
  destruct (restart_keeps_the_data 3 10 1 demo serviceable_demo) as (_ & _ & _ & _ & _ & H).
  exact H.
Defined.

Lemma is_streak_unique days today n m :
  is_streak days today n → is_streak days today m → n = m.
Proof.
  intros (Hn & Hrun & Hstop) (Hm & Hrun' & Hstop').
  destruct (Z.lt_trichotomy n m) as [Hlt|[Heq|Hgt]]; [|exact Heq|].
  - exfalso. apply Hstop, Hrun'. lia.
  - exfalso. apply Hstop', Hrun. lia.
Qed.

Lemma is_streak_mono days days' today n m :
  days ⊆ days' → is_streak days today n → is_streak days' today m → n ≤ m.
Proof.
  intros Hsub (Hn & Hrun & _) (Hm & _ & Hstop).
  destruct (Z_le_gt_dec n m) as [Hle|Hgt]; [exact Hle|].
  exfalso. apply Hstop, Hsub, Hrun. lia.
Qed.

Lemma streak_of_days_returned fuel today days n :
  streak_of_days fuel today days = Returned n → is_streak days today n.
Proof.
  unfold streak_of_days. destruct (decide (days = ∅)) as [->|Hne].
  - intros [= <-]. split; [lia|]. split; [intros i Hi; lia|apply not_elem_of_empty].
  - destruct (streak_loop fuel days today 0) as [k|] eqn:Hk; [|discriminate].
    intros [= <-]. apply streak_loop_sound in Hk as (? & Hrun & Hstop).
    split; [assumption|]. split; assumption.
Qed.

Lemma streak_of_days_enough fuel today days n :
  is_streak days today n → (Z.to_nat n < fuel)%nat →
  streak_of_days fuel today days = Returned n.
Proof.
  intros (Hn & Hrun & Hstop) Hfuel. unfold streak_of_days.
  destruct (decide (days = ∅)) as [->|Hne].
  - destruct (decide (n = 0)) as [->|Hpos]; [reflexivity|].
    exfalso. assert (today - 0 ∈ (∅ : gset Z)) as Hin by (apply Hrun; lia).
    by apply not_elem_of_empty in Hin.
  - rewrite (streak_loop_complete days today fuel 0 n); [reflexivity|lia|exact Hrun|exact Hstop|lia].
Qed.

Lemma size_list_to_set_le (l : list Z) : (size (list_to_set l : gset Z) ≤ length l)%nat.
Proof.
  induction l as [|x l IH]; [rewrite list_to_set_nil, size_empty; lia|].
  rewrite list_to_set_cons, size_union_alt, size_singleton. cbn.
  assert (size (list_to_set l ∖ {[x]} : gset Z) ≤ size (list_to_set l : gset Z))%nat
    by (apply subseteq_size, subseteq_difference_l; reflexivity).
  lia.
Qed.

Lemma is_streak_le_size days today n : is_streak days today n → n ≤ Z.of_nat (size days).
Proof.
  intros Hn.
  destruct (streak_loop_terminates days today (S (size days)) 0) as [m Hm].
  { pose proof (size_filter_le (λ d, d ≤ today - 0) days). lia. }
  pose proof (streak_loop_iterations _ _ _ _ _ Hm) as Hit.
  apply streak_loop_sound in Hm as (Hm0 & Hrun & Hstop).
  rewrite (is_streak_unique days today n m Hn); [lia|].
  split; [assumption|]. split; assumption.
Qed.

(** X8. A streak never exceeds the number of distinct days on which the
    habit was completed, nor the number of its completions, whatever the
    day: each day of the run needs a completion of its own. *)
Theorem streak_at_most_completions fuel today habit_id w streak :
  serviceable w →
  (get_current_streak fuel today habit_id w).1 = Returned streak →
  0 ≤ streak ≤ Z.of_nat (size (completion_dates habit_id w))
  ∧ (size (completion_dates habit_id w)
     ≤ length (filter (λ c, hc_habit_id c = habit_id) (stored_completions w)))%nat.
Proof.
  intros Hw Hret. pose proof (returned_in_range _ _ _ _ _ Hw Hret) as Hr.
  rewrite (get_current_streak_outcome _ _ _ _ Hw Hr) in Hret. cbn [fst] in Hret.
  apply streak_of_days_returned in Hret. split.
  - split; [apply Hret|apply (is_streak_le_size _ today), Hret].
  - unfold completion_dates. etransitivity; [apply size_list_to_set_le|].
    rewrite length_fmap. reflexivity.
Qed.

Lemma streak_at_most_completions_witness :
  0 ≤ 2 ≤ Z.of_nat (size (completion_dates 1 demo))
  ∧ (size (completion_dates 1 demo)
     ≤ length (filter (λ c, hc_habit_id c = 1%Z) (stored_completions demo)))%nat.
Proof.
  apply (streak_at_most_completions 3 10 1 demo 2 serviceable_demo). reflexivity.
Defined.

Lemma completion_dates_complete now habit_id k w :
  serviceable w →
  completion_dates k (complete_habit now habit_id w).2 =
    if bool_decide (sqlite_int habit_id)
       && bool_decide (habit_id ∈ h_id <$> stored_habits w)
       && bool_decide (habit_id = k)
    then {[DATE now]} ∪ completion_dates k w
    else completion_dates k w.
Proof.
  intros Hw. destruct (complete_habit_world now habit_id w Hw) as (w' & -> & _ & _ & Hc).
  unfold completion_dates. rewrite Hc, filter_app, fmap_app, list_to_set_app_L.
  destruct (bool_decide (sqlite_int habit_id)
            && bool_decide (habit_id ∈ h_id <$> stored_habits w)); cbn [andb];
    [|rewrite filter_nil; cbn; apply union_empty_r_L].
  rewrite filter_cons. cbn [hc_habit_id].
  case_bool_decide as Hk; [rewrite decide_True by exact Hk|rewrite decide_False by exact Hk];
    rewrite filter_nil; cbn; [|apply union_empty_r_L].
  rewrite union_empty_r_L. apply union_comm_L.
Qed.

(** X9. Completing a habit never lowers its streak: for the same day, the
    streak after [complete_habit] is at least the streak before it. *)
Theorem complete_habit_never_lowers_streak fuel today now habit_id w before after :
  serviceable w →
  (get_current_streak fuel today habit_id w).1 = Returned before →
  (get_current_streak fuel today habit_id (complete_habit now habit_id w).2).1 = Returned after →
  before ≤ after.
Proof.
  intros Hw Hb Ha. pose proof (returned_in_range _ _ _ _ _ Hw Hb) as Hr.
  destruct (complete_habit_world now habit_id w Hw) as (w' & Hw'eq & Hw' & _ & _).
  pose proof (completion_dates_complete now habit_id habit_id w Hw) as Hd.
  rewrite Hw'eq in *.
  rewrite get_current_streak_outcome in Hb, Ha by assumption. cbn [fst] in Hb, Ha.
  apply streak_of_days_returned in Hb, Ha.
  apply (is_streak_mono (completion_dates habit_id w) (completion_dates habit_id w')
           today before after); [|exact Hb|exact Ha].
  rewrite Hd. destruct (_ && _); [apply union_subseteq_r|reflexivity].
Qed.

Lemma complete_habit_never_lowers_streak_witness : 0 ≤ 3.
Proof.
  apply (complete_habit_never_lowers_streak 5 11 950400 1 demo 0 3 serviceable_demo);
    vm_compute; reflexivity.
Defined.

(** X10. Completing a habit today extends the run that ended yesterday by
    one day: when the habit exists and the completion is stamped with
    today's date, the streak as of today becomes one more than the streak
    as of yesterday was. *)
Theorem complete_habit_today_extends_streak fuel now habit_id w yesterday_streak :
  serviceable w →
  habit_id ∈ h_id <$> stored_habits w →
  (get_current_streak fuel (DATE now - 1) habit_id w).1 = Returned yesterday_streak →
  (Z.to_nat yesterday_streak + 1 < fuel)%nat →
  (get_current_streak fuel (DATE now) habit_id (complete_habit now habit_id w).2).1
  = Returned (yesterday_streak + 1).
Proof.
  intros Hw Hex Hy Hfuel. pose proof (returned_in_range _ _ _ _ _ Hw Hy) as Hr.
  destruct (complete_habit_world now habit_id w Hw) as (w' & Hw'eq & Hw' & _ & _).
  pose proof (completion_dates_complete now habit_id habit_id w Hw) as Hd.
  rewrite Hw'eq in *.
  rewrite get_current_streak_outcome in Hy by assumption.
  rewrite get_current_streak_outcome by assumption. cbn [fst] in *.
  rewrite (bool_decide_eq_true_2 _ Hr), (bool_decide_eq_true_2 _ Hex) in Hd.
  rewrite bool_decide_eq_true_2 in Hd by reflexivity. cbn [andb] in Hd.
  apply streak_of_days_returned in Hy as (Hn & Hrun & Hstop).
  apply streak_of_days_enough; [|lia]. rewrite Hd.
  split; [lia|]. split.
  - intros i Hi. destruct (decide (i = 0)) as [->|Hpos].
    + replace (DATE now - 0) with (DATE now) by lia.
      apply elem_of_union. left. apply elem_of_singleton. reflexivity.
    + apply elem_of_union. right.
      replace (DATE now - i) with (DATE now - 1 - (i - 1)) by lia. apply Hrun. lia.
  - intros Hin. apply elem_of_union in Hin as [Hin|Hin].
    + apply elem_of_singleton in Hin. lia.
    + apply Hstop. replace (DATE now - 1 - yesterday_streak)
        with (DATE now - (yesterday_streak + 1)) by lia. exact Hin.
Qed.

Lemma complete_habit_today_extends_streak_witness :
  (get_current_streak 5 (DATE 950400) 1 (complete_habit 950400 1 demo).2).1 = Returned (2 + 1).
Proof.
  apply (complete_habit_today_extends_streak 5 950400 1 demo 2 serviceable_demo).
  - apply (bool_decide_unpack _). vm_compute. exact I.
  - vm_compute. reflexivity.
  - vm_compute. lia.
Defined.

Lemma serviceable_tables w t : serviceable w → serviceable (set_store (Some t) (after_guard w)).
Proof. intros Hw. apply serviceable_set_store, serviceable_after_guard, Hw. Qed.

Lemma filter_all {A} (P : A → Prop) `{!∀ x, Decision (P x)} (l : list A) :
  (∀ x, x ∈ l → P x) → filter P l = l.
Proof.
  induction l as [|x l IH]; intros Hall; [reflexivity|].
  rewrite filter_cons, decide_True by (apply Hall, elem_of_cons; left; reflexivity).
  f_equal. apply IH. intros y Hy. apply Hall, elem_of_cons. right. exact Hy.
Qed.

Lemma filter_none {A} (P : A → Prop) `{!∀ x, Decision (P x)} (l : list A) :
  (∀ x, x ∈ l → ¬ P x) → filter P l = [].
Proof.
  induction l as [|x l IH]; intros Hall; [reflexivity|].
  rewrite filter_cons, decide_False by (apply Hall, elem_of_cons; left; reflexivity).
  apply IH. intros y Hy. apply Hall, elem_of_cons. right. exact Hy.
Qed.

Lemma filter_other (h k : Z) (cs : list Completion) :
  k ≠ h →
  filter (λ c, hc_habit_id c = h) (filter (λ c, hc_habit_id c ≠ k) cs)
  = filter (λ c, hc_habit_id c = h) cs.
Proof.
  intros Hne. induction cs as [|c cs IH]; [reflexivity|].
  rewrite !filter_cons. destruct (decide (hc_habit_id c ≠ k)) as [Hk|Hk].
  - rewrite filter_cons. destruct (decide (hc_habit_id c = h)); [f_equal|]; exact IH.
  - rewrite decide_False by (intros Hh; apply Hk; congruence). exact IH.
Qed.

Lemma after_guard_rows w :
  serviceable w →
  serviceable (after_guard w)
  ∧ stored_habits (after_guard w) = stored_habits w
  ∧ stored_completions (after_guard w) = stored_completions w.
Proof.
  intros Hw. split; [apply serviceable_after_guard, Hw|].
  unfold stored_habits, stored_completions. rewrite store_after_guard by exact Hw.
  destruct w as [i l [t|] f]; split; reflexivity.
Qed.

Lemma delete_habit_world habit_id w :
  serviceable w → sqlite_int habit_id →
  ∃ w', (delete_habit habit_id w).2 = w' ∧ serviceable w'
    ∧ stored_habits w' = filter (λ h, h_id h ≠ habit_id) (stored_habits w)
    ∧ stored_completions w' =
        if bool_decide (habit_id ∈ h_id <$> stored_habits w)
        then filter (λ c, hc_habit_id c ≠ habit_id) (stored_completions w)
        else stored_completions w.
Proof.
  intros Hw Hr. rewrite (delete_habit_ok _ _ Hw Hr). cbn [snd]. eexists. split; [reflexivity|].
  split; [apply serviceable_tables, Hw|].
  pose proof (habit_exists_tables_of habit_id w) as Hex.
  unfold stored_habits at 1, stored_completions at 1. cbn.
  rewrite habits_tables_of, completions_tables_of, Hex. split; reflexivity.
Qed.

Lemma add_habit_world now name description w :
  serviceable w →
  ∃ w', (add_habit now name description w).2 = w' ∧ serviceable w'
    ∧ stored_habits w' = stored_habits w ++
        [mkHabit (next_rowid (habits_seq (tables_of w)) (h_id <$> stored_habits w))
           name description now true]
    ∧ stored_completions w' = stored_completions w.
Proof.
  intros Hw. rewrite (add_habit_ok _ _ _ _ Hw). cbn [snd]. eexists. split; [reflexivity|].
  split; [apply serviceable_tables, Hw|].
  unfold stored_habits at 1, stored_completions at 1. cbn.
  rewrite habits_tables_of, completions_tables_of. split; reflexivity.
Qed.

Lemma same_completions_same_streak fuel today habit_id w w' :
  serviceable w → serviceable w' →
  filter (λ c, hc_habit_id c = habit_id) (stored_completions w')
  = filter (λ c, hc_habit_id c = habit_id) (stored_completions w) →
  (get_current_streak fuel today habit_id w').1 = (get_current_streak fuel today habit_id w).1.
Proof.
  intros Hw Hw' Heq. rewrite !get_current_streak_result by assumption. cbn [fst].
  unfold streak_outcome, completion_dates. rewrite Heq. reflexivity.
Qed.

(** X11. A habit's streak depends on its own completions only: adding a
    habit, completing another habit and deleting another habit all leave
    the result of [get_current_streak] for this habit unchanged. *)
Theorem other_habits_leave_streak_unchanged fuel today habit_id other now name description w :
  serviceable w → other ≠ habit_id →
  (get_current_streak fuel today habit_id (add_habit now name description w).2).1
    = (get_current_streak fuel today habit_id w).1
  ∧ (get_current_streak fuel today habit_id (complete_habit now other w).2).1
    = (get_current_streak fuel today habit_id w).1
  ∧ (get_current_streak fuel today habit_id (delete_habit other w).2).1
    = (get_current_streak fuel today habit_id w).1.
Proof.
  intros Hw Hne. split; [|split].
  - destruct (add_habit_world now name description w Hw) as (w' & -> & Hw' & _ & Hc).
    apply same_completions_same_streak; [assumption..|]. rewrite Hc. reflexivity.
  - destruct (complete_habit_world now other w Hw) as (w' & -> & Hw' & _ & Hc).
    apply same_completions_same_streak; [assumption..|]. rewrite Hc, filter_app.
    destruct (_ && _); [|rewrite filter_nil, app_nil_r; reflexivity].
    rewrite filter_cons, decide_False by exact Hne. rewrite filter_nil, app_nil_r. reflexivity.
  - destruct (decide (sqlite_int other)) as [Hr|Hr].
    + destruct (delete_habit_world other w Hw Hr) as (w' & -> & Hw' & _ & Hc).
      apply same_completions_same_streak; [assumption..|]. rewrite Hc.
      destruct (bool_decide _); [apply filter_other, Hne|reflexivity].
    + rewrite (delete_habit_overflow _ _ Hw Hr). cbn [snd].
      destruct (after_guard_rows w Hw) as (Hw' & _ & Hc).
      apply same_completions_same_streak; [assumption..|]. rewrite Hc. reflexivity.
Qed.

Lemma other_habits_leave_streak_unchanged_witness :
  (get_current_streak 3 10 1 (delete_habit 2 (add_habit 900000 "Read" "pages" demo).2).2).1
  = (get_current_streak 3 10 1 (add_habit 900000 "Read" "pages" demo).2).1.
Proof.
  destruct (other_habits_leave_streak_unchanged 3 10 1 2 0 "x" "y"
              (add_habit 900000 "Read" "pages" demo).2) as (_ & _ & H).
  - split; [reflexivity|]. intros _. vm_compute. eauto.
  - discriminate.
  - exact H.
Defined.

(** X12. [delete_habit] on an id that fits a 64-bit signed integer and
    that no habit has still returns its confirmation and deletes nothing:
    habits and completions stay exactly as they were. *)
Theorem delete_habit_of_unknown_id habit_id w :
  serviceable w →
  sqlite_int habit_id →
  habit_id ∉ h_id <$> stored_habits w →
  ∃ w',
    delete_habit habit_id w =
      (Returned ("Habit " +:+ pretty habit_id +:+ " deleted successfully."), w')
    ∧ stored_habits w' = stored_habits w
    ∧ stored_completions w' = stored_completions w.
Proof.
  intros Hw Hr Hid.
  destruct (delete_habit_world habit_id w Hw Hr) as (w' & Heq & _ & Hh & Hc).
  exists w'. split; [rewrite <- Heq, (delete_habit_ok _ _ Hw Hr); reflexivity|].
  rewrite Hh, Hc, bool_decide_eq_false_2 by exact Hid. split; [|reflexivity].
  apply filter_all. intros h Hh' Heq'. apply Hid. rewrite <- Heq'.
  apply list_elem_of_fmap_2, Hh'.
Qed.

Lemma delete_habit_of_unknown_id_witness :
  ∃ w', delete_habit 7 demo = (Returned "Habit 7 deleted successfully.", w')
        ∧ stored_habits w' = stored_habits demo
        ∧ stored_completions w' = stored_completions demo.
Proof.
  apply (delete_habit_of_unknown_id 7 demo serviceable_demo).
  - unfold sqlite_int. lia.
  - apply (bool_decide_unpack _). vm_compute. exact I.
Defined.

(** X13. Once [delete_habit] has returned, in a state reached from an empty
    database: the streak of the deleted id is 0 on every day,
    [complete_habit] for it reports that the habit does not exist and stores
    nothing, and [list_habits] no longer returns it, while every other habit
    is still listed, in the same order. *)
Theorem deleted_habit_is_gone evs fuel today now habit_id :
  returns (delete_habit habit_id (run evs fresh)) →
  let w' := (delete_habit habit_id (run evs fresh)).2 in
  (get_current_streak fuel today habit_id w').1 = Returned 0
  ∧ (complete_habit now habit_id w').1
      = Returned ("Habit " +:+ pretty habit_id +:+ " does not exist.")
  ∧ stored_completions (complete_habit now habit_id w').2 = stored_completions w'
  ∧ (list_habits w').1
      = Returned (filter (λ h, h_id h ≠ habit_id) (stored_habits (run evs fresh))).
Proof.
  intros [msg Hret] w'. set (w := run evs fresh) in *.
  assert (delete_habit habit_id w = (Returned msg, (delete_habit habit_id w).2)) as Hret'
    by (destruct (delete_habit habit_id w) as [r w0]; cbn in Hret; subst r; reflexivity).
  pose proof (returned_serviceable _ _ _ _ (flag_sound_run evs) Hret') as Hw.
  pose proof (returned_delete_in_range _ _ _ _ Hw Hret') as Hr. clear Hret Hret'.
  destruct (delete_habit_world habit_id w Hw Hr) as (w1 & Heq & Hw1 & Hh & Hc).
  subst w'. rewrite Heq.
  assert (habit_id ∉ h_id <$> stored_habits w1) as Hgone.
  { rewrite Hh. intros Hin. apply list_elem_of_fmap in Hin as (h & -> & Hin).
    apply list_elem_of_filter in Hin as [Hne _]. apply Hne. reflexivity. }
  assert (filter (λ c, hc_habit_id c = habit_id) (stored_completions w1) = []) as Hnone.
  { apply filter_none. intros c Hin Hsame. rewrite Hc in Hin. case_bool_decide as Hex.
    - apply list_elem_of_filter in Hin as [Hne _]. contradiction.
    - apply Hex. rewrite <- Hsame, <- habits_tables_of.
      apply referential_integrity_run. rewrite completions_tables_of. exact Hin. }
  split; [|split; [|split]].
  - rewrite (get_current_streak_outcome _ _ _ _ Hw1 Hr). cbn [fst].
    unfold streak_of_days, completion_dates. rewrite Hnone. reflexivity.
  - rewrite (complete_habit_missing _ _ _ Hw1 Hr); [reflexivity|].
    rewrite habit_exists_tables_of. apply bool_decide_eq_false_2, Hgone.
  - destruct (complete_habit_world now habit_id w1 Hw1) as (w2 & -> & _ & _ & Hc2).
    rewrite Hc2, (bool_decide_eq_false_2 _ Hgone), andb_false_r. apply app_nil_r.
  - rewrite (list_habits_ok _ Hw1). cbn [fst]. rewrite Hh. reflexivity.
Qed.

Lemma deleted_habit_is_gone_witness :
  (get_current_streak 3 10 1 (delete_habit 1 demo).2).1 = Returned 0
  ∧ (complete_habit 950000 1 (delete_habit 1 demo).2).1 = Returned "Habit 1 does not exist.".
Proof.
  destruct (deleted_habit_is_gone demo_events 3 10 950000 1) as (H1 & H2 & _).
  - eexists. vm_compute. reflexivity.
  - split; [exact H1|exact H2].
Defined.

(** X14. What [add_habit] stores, [list_habits] returns: right after
    [add_habit], [list_habits] returns the habits stored before, in their
    order, followed by the new habit with the given name and description,
    the current timestamp, the active flag set and an id no other habit has. *)
Theorem add_habit_then_list_habits now name description w :
  serviceable w →
  ∃ h,
    (list_habits (add_habit now name description w).2).1 = Returned (stored_habits w ++ [h])
    ∧ h_name h = name ∧ h_description h = description
    ∧ h_created_at h = now ∧ h_is_active h = true
    ∧ (h_id h ∉ h_id <$> stored_habits w).
Proof.
  intros Hw. destruct (add_habit_world now name description w Hw) as (w' & -> & Hw' & Hh & _).
  eexists. rewrite (list_habits_ok _ Hw'). cbn [fst]. rewrite Hh.
  split; [reflexivity|]. cbn. repeat split. apply next_rowid_fresh.
Qed.

Lemma add_habit_then_list_habits_witness :
  ∃ h,
    (list_habits (add_habit 900000 "Read" "pages" demo).2).1 = Returned (stored_habits demo ++ [h])
    ∧ h_name h = "Read".
Proof.
  destruct (add_habit_then_list_habits 900000 "Read" "pages" demo serviceable_demo)
    as (h & H1 & H2 & _).
  exists h. split; [exact H1|exact H2].
Defined.

(** X15. What [complete_habit] stores, [list_completions] returns: after
    [complete_habit] on a stored habit (its id a 64-bit signed integer, as
    every id SQLite stores is), [list_completions] returns a row with that
    habit's name and the timestamp of the call, under an id that no earlier
    completion has. *)
Theorem complete_habit_then_list_completions now h w :
  serviceable w →
  sqlite_int (h_id h) →
  h ∈ stored_habits w →
  ∃ i rows w',
    list_completions (complete_habit now (h_id h) w).2 = (Returned rows, w')
    ∧ (i, h_name h, now) ∈ rows
    ∧ (i ∉ hc_id <$> stored_completions w).
Proof.
  intros Hw Hr Hh.
  destruct (complete_habit_world now (h_id h) w Hw) as (w' & -> & Hw' & Hhs & Hc).
  rewrite (bool_decide_eq_true_2 _ Hr) in Hc.
  rewrite (bool_decide_eq_true_2 _ (list_elem_of_fmap_2 h_id _ _ Hh)) in Hc. cbn [andb] in Hc.
  eexists _, _, _. rewrite (list_completions_ok _ Hw'). split; [reflexivity|].
  split; [|apply next_rowid_fresh].
  apply elem_of_select_completions. eexists _, h.
  rewrite habits_tables_of, completions_tables_of, Hhs, Hc.
  split; [apply elem_of_app; right; apply list_elem_of_singleton; reflexivity|].
  split; [exact Hh|]. split; reflexivity.
Qed.

Lemma complete_habit_then_list_completions_witness :
  ∃ i rows w',
    list_completions (complete_habit 950000 1 demo).2 = (Returned rows, w')
    ∧ (i, "Exercise", 950000) ∈ rows.
Proof.
  destruct (complete_habit_then_list_completions 950000
              (mkHabit 1 "Exercise" "daily" 777600 true) demo serviceable_demo)
    as (i & rows & w' & H1 & H2 & _).
  - unfold sqlite_int. cbn. lia.
  - apply (bool_decide_unpack _). vm_compute. exact I.
  - exists i, rows, w'. split; [exact H1|exact H2].
Defined.

(** X16. Deleting a habit right after adding it restores the stored rows:
    in a state reached from an empty database, [add_habit] followed by
    [delete_habit] of the id it assigned (a 64-bit signed integer, as every
    id SQLite assigns is) leaves the habits and the completions as they were
    before the two calls. *)
Theorem add_then_delete_restores_rows evs now name description :
  store_fault (run evs fresh) = None →
  ∃ h,
    stored_habits (add_habit now name description (run evs fresh)).2
      = stored_habits (run evs fresh) ++ [h]
    ∧ (sqlite_int (h_id h) →
       stored_habits (delete_habit (h_id h) (add_habit now name description (run evs fresh)).2).2
         = stored_habits (run evs fresh)
       ∧ stored_completions
           (delete_habit (h_id h) (add_habit now name description (run evs fresh)).2).2
         = stored_completions (run evs fresh)).
Proof.
  intros Hf. set (w := run evs fresh) in *.
  assert (serviceable w) as Hw by (split; [exact Hf|apply flag_sound_run]).
  destruct (add_habit_world now name description w Hw) as (w1 & -> & Hw1 & Hh & Hc).
  eexists. split; [exact Hh|].
  set (i := next_rowid (habits_seq (tables_of w)) (h_id <$> stored_habits w)).
  assert (i ∉ h_id <$> stored_habits w) as Hfresh by apply next_rowid_fresh.
  cbn [h_id]. fold i. intros Hr.
  destruct (delete_habit_world i w1 Hw1 Hr) as (w2 & Heq & _ & Hh2 & Hc2).
  rewrite Heq, Hh2, Hc2, Hh, Hc. split.
  - rewrite filter_app, filter_cons, decide_False by (intros Hne; apply Hne; reflexivity).
    rewrite filter_nil, app_nil_r. apply filter_all.
    intros h Hin Heq'. apply Hfresh. rewrite <- Heq'. apply list_elem_of_fmap_2, Hin.
  - rewrite bool_decide_eq_true_2
      by (rewrite fmap_app; apply elem_of_app; right; apply list_elem_of_singleton; reflexivity).
    apply filter_all. intros c Hin Heq'. apply Hfresh. rewrite <- Heq', <- habits_tables_of.
    apply referential_integrity_run. rewrite completions_tables_of. exact Hin.
Qed.

Lemma add_then_delete_restores_rows_witness :
  ∃ h,
    stored_habits (add_habit 900000 "Read" "pages" demo).2 = stored_habits demo ++ [h]
    ∧ stored_habits (delete_habit (h_id h) (add_habit 900000 "Read" "pages" demo).2).2
      = stored_habits demo.
Proof.
  destruct (add_then_delete_restores_rows demo_events 900000 "Read" "pages" eq_refl)
    as (h & H1 & H2).
  exists h. split; [exact H1|]. apply H2.
  apply (f_equal (λ l, h_id <$> l)) in H1. vm_compute in H1.
  destruct h as [i ? ? ? ?]. cbn in H1 |- *. injection H1 as <-. unfold sqlite_int. lia.
Defined.

End ServiceExtras.

(** ** Further properties of the concurrent guard *)

Module GuardExtras.
Import Guard GuardFacts.
Local Open Scope nat_scope.

Lemma two_holders (ps : list pc) (i j : nat) :
  ps !! i = Some InitDb → ps !! j = Some InitDb → i ≠ j → 2 ≤ holders ps.
Proof.
  intros Hi Hj Hne.
  pose proof (holders_insert ps i _ Called Hi) as X. cbn [in_init_db] in X.
  assert (<[i:=Called]> ps !! j = Some InitDb) as Hj'
    by (rewrite list_lookup_insert_ne by exact Hne; exact Hj).
  pose proof (holder_holds_lock _ _ Hj'). lia.
Qed.

Lemma some_holder (ps : list pc) : 1 ≤ holders ps → ∃ i, ps !! i = Some InitDb.
Proof.
  induction ps as [|p ps IH]; cbn [holders]; [lia|].
  destruct p; cbn [in_init_db]; try (intros H; destruct IH as [i Hi]; [lia|exists (S i); exact Hi]).
  intros _. exists 0. reflexivity.
Qed.

(** X17. In every interleaving of any number of guard calls, at most one
    call is inside [init_db] at a time, and the lock is held exactly while
    some call is: it is never left locked by a call that returned or
    raised; while it is held the flag is still unset. *)
Theorem init_db_runs_under_mutual_exclusion (tables : bool) (n : nat) (ms : list move) :
  let c := run_schedule ms (boot tables n) in
  (∀ i j, calls c !! i = Some InitDb → calls c !! j = Some InitDb → i = j)
  ∧ (lock_held c = true ↔ ∃ i, calls c !! i = Some InitDb)
  ∧ (lock_held c = true → db_initialized c = false).
Proof.
  intros c. destruct (invariant_run tables n ms) as [_ H2 H3 _ _ _ _ _].
  fold c in H2, H3. split; [|split; [split|exact H3]].
  - intros i j Hi Hj. destruct (decide (i = j)) as [|Hne]; [assumption|].
    pose proof (two_holders _ _ _ Hi Hj Hne). destruct (lock_held c); lia.
  - intros Hl. apply some_holder. rewrite H2, Hl. lia.
  - intros [i Hi]. pose proof (holder_holds_lock _ _ Hi).
    destruct (lock_held c); [reflexivity|lia].
Qed.

Lemma init_db_runs_under_mutual_exclusion_witness :
  let c := run_schedule [RunCall 1 Go; RunCall 0 Go; RunCall 2 Queue] (boot false 3) in
  lock_held c = true ∧ db_initialized c = false.
Proof.
  intros c.
  destruct (init_db_runs_under_mutual_exclusion false 3
              [RunCall 1 Go; RunCall 0 Go; RunCall 2 Queue]) as (_ & Hlock & Hflag).
  assert (lock_held c = true) as Hl by (apply Hlock; exists 1; reflexivity).
  split; [exact Hl|apply Hflag, Hl].
Defined.

Lemma work_insert (ps : list pc) (i : nat) (p q : pc) :
  ps !! i = Some p → work (<[i:=q]> ps) + weight p = work ps + weight q.
Proof.
  revert i. induction ps as [|x ps IH]; intros [|i] Hi; try discriminate Hi.
  - injection Hi as ->. change (<[0:=q]> (p :: ps)) with (q :: ps). cbn [work]. lia.
  - change ((x :: ps) !! S i) with (ps !! i) in Hi. specialize (IH i Hi).
    change (<[S i:=q]> (x :: ps)) with (x :: <[i:=q]> ps). cbn [work]. lia.
Qed.

Lemma work_zero (ps : list pc) : work ps = 0 → forallb finished ps = true.
Proof.
  induction ps as [|p ps IH]; [reflexivity|]. cbn [work forallb].
  destruct p; cbn [weight finished]; try lia; intros H; apply IH; lia.
Qed.

Lemma some_work (ps : list pc) :
  0 < work ps → ∃ i p, ps !! i = Some p ∧ 0 < weight p.
Proof.
  induction ps as [|x ps IH]; cbn [work]; [lia|].
  destruct (decide (0 < weight x)) as [Hx|Hx]; [intros _; exists 0, x; split; [reflexivity|exact Hx]|].
  intros H. destruct IH as (i & p & Hi & Hp); [lia|]. exists (S i), p. split; assumption.
Qed.

Lemma run_schedule_cons m ms c : run_schedule (m :: ms) c = run_schedule ms (step m c).
Proof. reflexivity. Qed.

Lemma work_replicate_called n : work (replicate n Called) = 3 * n.
Proof. induction n as [|n IH]; [reflexivity|]. cbn [replicate work weight]. lia. Qed.

Lemma work_call_step i ch c : work (calls (call_step i ch c)) ≤ work (calls c).
Proof.
  unfold call_step. destruct (calls c !! i) as [p|] eqn:Hi; [|lia].
  destruct p; try lia.
  - pose proof (work_insert (calls c) i _ Ready Hi) as X1.
    pose proof (work_insert (calls c) i _ Acquiring Hi) as X2.
    pose proof (work_insert (calls c) i _ InitDb Hi) as X3. cbn [weight] in *.
    destruct (db_initialized c), (lock_held c), ch; cbn; lia.
  - pose proof (work_insert (calls c) i _ Ready Hi) as X1.
    pose proof (work_insert (calls c) i _ InitDb Hi) as X3. cbn [weight] in *.
    destruct (db_initialized c), (lock_held c); cbn; lia.
  - pose proof (work_insert (calls c) i _ Ready Hi) as X1. cbn [weight] in X1.
    destruct ch; cbn; try lia.
    pose proof (work_insert (calls c) i _ (Failed e) Hi) as X2. cbn [weight] in X2. lia.
Qed.

Lemma work_run tables n ms : work (calls (run_schedule ms (boot tables n))) ≤ 3 * n.
Proof.
  induction ms as [|m ms IH] using rev_ind; [cbn; rewrite work_replicate_called; lia|].
  unfold run_schedule. rewrite foldl_app. cbn [foldl].
  fold (run_schedule ms (boot tables n)).
  destruct m as [ch|i ch]; cbn [step].
  - unfold import_step. destruct (import _); [destruct ch|..]; cbn; exact IH.
  - pose proof (work_call_step i ch (run_schedule ms (boot tables n))). lia.
Qed.

(** X19. In every interleaving, when the [init_db] of the call that holds
    the lock raises, that call ends with the same exception, the lock is
    released, the flag is still unset, the guard has counted no run, and no
    other call is affected. *)
Theorem failed_init_db_hands_over (tables : bool) (n : nat) (ms : list move) (i : nat) (e : exn) :
  let c := run_schedule ms (boot tables n) in
  let c' := step (RunCall i (InitFails e)) c in
  calls c !! i = Some InitDb →
  calls c' !! i = Some (Failed e)
  ∧ lock_held c' = false
  ∧ db_initialized c' = false
  ∧ guard_runs c' = guard_runs c
  ∧ (∀ j, j ≠ i → calls c' !! j = calls c !! j).
Proof.
  intros c c' Hi. destruct (invariant_run tables n ms) as [_ H2 H3 _ _ _ _ _].
  fold c in H2, H3. pose proof (holder_holds_lock _ _ Hi) as Hheld.
  assert (lock_held c = true) as Hl by (destruct (lock_held c); [reflexivity|lia]).
  pose proof (H3 Hl) as Hflag.
  assert (c' = with_call i (Failed e) (set_lock_held false c)) as ->
    by (subst c'; cbn; unfold call_step; rewrite Hi; reflexivity).
  cbn. repeat split; try assumption.
  - apply list_lookup_insert_eq. eapply lookup_lt_Some, Hi.
  - intros j Hne. apply list_lookup_insert_ne. congruence.
Qed.

Lemma failed_init_db_hands_over_witness :
  let c := step (RunCall 0 (InitFails (OperationalError "database is locked")))
             (run_schedule [RunCall 0 Go; RunCall 1 Go] (boot false 2)) in
  calls c !! 0 = Some (Failed (OperationalError "database is locked"))
  ∧ lock_held c = false
  ∧ db_initialized c = false
  ∧ calls c !! 1 = Some Acquiring.
Proof.
  intros c.
  destruct (failed_init_db_hands_over false 2 [RunCall 0 Go; RunCall 1 Go] 0
              (OperationalError "database is locked") eq_refl)
    as (H1 & H2 & H3 & _ & H5).
  split; [exact H1|]. split; [exact H2|]. split; [exact H3|].
  exact (H5 1 ltac:(discriminate)).
Defined.

End GuardExtras.

(** ** The guard under the wake-up order of [asyncio.Lock]: properties *)

Module FifoFacts.
Import Guard GuardFacts GuardExtras Fifo.
Local Open Scope nat_scope.

Lemma waiting_insert (ps : list pc) (q : list nat) (i : nat) (p p' : pc) :
  (∀ k, k ∈ q ↔ ps !! k = Some Acquiring) →
  ps !! i = Some p → p ≠ Acquiring → p' ≠ Acquiring →
  ∀ k, k ∈ q ↔ <[i:=p']> ps !! k = Some Acquiring.
Proof.
  intros Hq Hi Hp Hp' k. rewrite Hq. destruct (decide (i = k)) as [<-|Hne].
  - rewrite list_lookup_insert_eq by (eapply lookup_lt_Some, Hi). rewrite Hi.
    split; intros H; injection H as H; contradiction.
  - rewrite list_lookup_insert_ne by exact Hne. reflexivity.
Qed.

Lemma waiting_push (ps : list pc) (q : list nat) (i : nat) (p : pc) :
  (∀ k, k ∈ q ↔ ps !! k = Some Acquiring) →
  ps !! i = Some p →
  ∀ k, k ∈ q ++ [i] ↔ <[i:=Acquiring]> ps !! k = Some Acquiring.
Proof.
  intros Hq Hi k. rewrite elem_of_app, list_elem_of_singleton, Hq.
  destruct (decide (i = k)) as [<-|Hne].
  - rewrite list_lookup_insert_eq by (eapply lookup_lt_Some, Hi). tauto.
  - rewrite list_lookup_insert_ne by exact Hne. split; [intros [H|H]; [exact H|congruence]|tauto].
Qed.

Lemma waiting_pop (ps : list pc) (ws : list nat) (i : nat) (p' : pc) :
  (∀ k, k ∈ i :: ws ↔ ps !! k = Some Acquiring) →
  NoDup (i :: ws) → p' ≠ Acquiring →
  ∀ k, k ∈ ws ↔ <[i:=p']> ps !! k = Some Acquiring.
Proof.
  intros Hq Hnd Hp' k. apply NoDup_cons in Hnd as [Hi _].
  assert (ps !! i = Some Acquiring) as Hlook by (apply Hq; left).
  destruct (decide (i = k)) as [<-|Hne].
  - rewrite list_lookup_insert_eq by (eapply lookup_lt_Some, Hlook).
    split; [contradiction|intros H; injection H as H; contradiction].
  - rewrite list_lookup_insert_ne by exact Hne. rewrite <- Hq, elem_of_cons.
    split; [tauto|intros [H|H]; [congruence|exact H]].
Qed.

Lemma leave_held i p s :
  lock_held (config s) = true →
  leave i p s =
    {| config := with_call i p (set_lock_held false (config s));
       waiters := waiters s;
       woken := match waiters s with [] => woken s | _ => true end |}.
Proof.
  intros Hl. unfold leave, release, wake_up_first. rewrite Hl.
  destruct s as [c q wk]. cbn. destruct q; reflexivity.
Qed.

Lemma holder_lock_held tables (c : Config) i :
  Guard.invariant tables c → calls c !! i = Some InitDb → lock_held c = true.
Proof.
  intros Hc Hi. pose proof (holder_holds_lock _ _ Hi) as Hheld.
  rewrite (inv_holders _ _ Hc) in Hheld. destruct (lock_held c); [reflexivity|lia].
Qed.

Lemma fifo_invariant_boot tables n : invariant tables (boot tables n).
Proof.
  split; cbn.
  - apply GuardFacts.invariant_boot.
  - intros i. split; [intros H; inversion H|].
    intros H. apply lookup_replicate in H as [H _]. discriminate H.
  - constructor.
  - reflexivity.
Qed.

(** Every step under the wake-up order of [asyncio.Lock] is a step of the
    guard with the lock as plain mutual exclusion, or leaves the
    configuration as it is. *)
Lemma step_refines tables m s :
  invariant tables s →
  config (step m s) = config s ∨ ∃ m', config (step m s) = Guard.step m' (config s).
Proof.
  intros [Hc Hw Hnd Hwk]. destruct m as [ch|i ch].
  - right. exists (RunImport ch). reflexivity.
  - cbn [step]. unfold call_step.
    destruct (calls (config s) !! i) as [p|] eqn:Hi; [|left; reflexivity].
    destruct p; try (left; reflexivity).
    + right. destruct (db_initialized (config s)) eqn:Hflag.
      * exists (RunCall i Go). cbn. unfold Guard.call_step. rewrite Hi, Hflag. reflexivity.
      * unfold lock_free. destruct (lock_held (config s)) eqn:Hl; cbn.
        -- exists (RunCall i Go). cbn. unfold Guard.call_step. rewrite Hi, Hflag, Hl. reflexivity.
        -- case_bool_decide.
           ++ exists (RunCall i Go). cbn. unfold Guard.call_step. rewrite Hi, Hflag, Hl. reflexivity.
           ++ exists (RunCall i Queue). cbn. unfold Guard.call_step. rewrite Hi, Hflag, Hl. reflexivity.
    + destruct (first_woken i s) eqn:Hfw; [|left; reflexivity].
      right. exists (RunCall i Go). cbn [Guard.step]. unfold Guard.call_step. rewrite Hi.
      unfold first_woken in Hfw. apply andb_prop in Hfw as [Hwoken _].
      rewrite Hwk in Hwoken. apply andb_prop in Hwoken as [Hl _].
      apply negb_true_iff in Hl. rewrite Hl. cbn zeta.
      change (db_initialized (config (resume_acquire s))) with (db_initialized (config s)).
      destruct (db_initialized (config s)); [|reflexivity].
      rewrite leave_held by reflexivity.
      destruct s as [c q wk]. destruct c as [flag lock sch gr ir tc imp ps]. cbn in *. subst lock.
      reflexivity.
    + right. exists (RunCall i ch). cbn [Guard.step]. unfold Guard.call_step. rewrite Hi.
      pose proof (holder_lock_held _ _ _ Hc Hi) as Hl.
      destruct ch; rewrite leave_held by exact Hl; reflexivity.
Qed.

Lemma fifo_invariant_config_step tables m s :
  invariant tables s → Guard.invariant tables (config (step m s)).
Proof.
  intros Hinv. destruct (step_refines tables m s Hinv) as [->|[m' ->]].
  - apply Hinv.
  - destruct m'; [apply invariant_import_step|apply invariant_call_step]; apply Hinv.
Qed.

Lemma woken_free (l : bool) (q : list nat) :
  negb l && negb (bool_decide (q = [])) = true → l = false ∧ q ≠ [].
Proof.
  destruct l; [discriminate|]. cbn. case_bool_decide; [discriminate|]. intros _. split; [reflexivity|assumption].
Qed.

Lemma fifo_invariant_step tables m s : invariant tables s → invariant tables (step m s).
Proof.
  intros Hinv. pose proof (fifo_invariant_config_step tables m s Hinv) as Hcfg.
  destruct Hinv as [Hc Hw Hnd Hwk]. split; [exact Hcfg|..]; clear Hcfg.
  all: destruct m as [ch|i ch]; cbn [step].
  all: try (destruct s as [c q wk]; destruct c as [flag lock sch gr ir tc imp ps];
            unfold import_step; cbn in *; destruct imp; [destruct ch|..]; cbn; assumption).
  all: unfold call_step; destruct (calls (config s) !! i) as [p|] eqn:Hi; try assumption.
  all: destruct p; try assumption.
  (* waiting *)
  - destruct (db_initialized (config s)); cbn.
    + eapply waiting_insert; eauto; discriminate.
    + destruct (lock_free s); cbn.
      * eapply waiting_insert; eauto; discriminate.
      * eapply waiting_push; eauto.
  - destruct (first_woken i s) eqn:Hfw; [|assumption].
    unfold first_woken in Hfw. apply andb_prop in Hfw as [Hwoken Hhead].
    apply bool_decide_eq_true_1 in Hhead.
    destruct (waiters s) as [|j ws] eqn:Hq; [discriminate|]. injection Hhead as ->.
    destruct (db_initialized (config (resume_acquire s))) eqn:Hflag.
    + rewrite leave_held by reflexivity. cbn. rewrite Hq. cbn.
      eapply waiting_pop; eauto; discriminate.
    + cbn. rewrite Hq. cbn. eapply waiting_pop; eauto; discriminate.
  - pose proof (holder_lock_held _ _ _ Hc Hi) as Hl.
    destruct ch; rewrite leave_held by exact Hl; cbn;
      eapply waiting_insert; eauto; discriminate.
  (* no duplicates *)
  - destruct (db_initialized (config s)); cbn; [assumption|].
    destruct (lock_free s); cbn; [assumption|].
    apply NoDup_app. split; [assumption|]. split; [|apply NoDup_singleton].
    intros k Hk Hk'. apply list_elem_of_singleton in Hk'. subst k.
    apply Hw in Hk. congruence.
  - destruct (first_woken i s) eqn:Hfw; [|assumption].
    assert (NoDup (tail (waiters s))) as Hnd'
      by (destruct (waiters s); [constructor|apply NoDup_cons in Hnd; apply Hnd]).
    destruct (db_initialized (config (resume_acquire s))) eqn:Hflag.
    + rewrite leave_held by reflexivity. cbn. assumption.
    + cbn. assumption.
  - pose proof (holder_lock_held _ _ _ Hc Hi) as Hl.
    destruct ch; rewrite leave_held by exact Hl; cbn; assumption.
  (* woken *)
  - destruct (db_initialized (config s)); cbn; [assumption|].
    unfold lock_free. destruct (lock_held (config s)) eqn:Hl; cbn.
    + rewrite Hwk, Hl. reflexivity.
    + case_bool_decide as Hq; cbn.
      * exact Hwk.
      * rewrite Hwk, Hl. cbn. rewrite bool_decide_eq_false_2; [reflexivity|].
        destruct (waiters s); discriminate.
  - destruct (first_woken i s) eqn:Hfw; [|assumption].
    destruct (db_initialized (config (resume_acquire s))) eqn:Hflag.
    + rewrite leave_held by reflexivity. cbn. destruct (tail (waiters s)); reflexivity.
    + reflexivity.
  - pose proof (holder_lock_held _ _ _ Hc Hi) as Hl.
    destruct ch; rewrite leave_held by exact Hl; cbn; rewrite ?Hwk, ?Hl;
      destruct (waiters s); reflexivity.
Qed.

Lemma fifo_invariant_run tables n ms : invariant tables (run_schedule ms (boot tables n)).
Proof.
  induction ms as [|m ms IH] using rev_ind; [apply fifo_invariant_boot|].
  unfold run_schedule. rewrite foldl_app. cbn. apply fifo_invariant_step, IH.
Qed.

Lemma fifo_run_schedule_snoc ms m s : run_schedule (ms ++ [m]) s = step m (run_schedule ms s).
Proof. unfold run_schedule. rewrite foldl_app. reflexivity. Qed.

Lemma fifo_run_schedule_app ms ms' s :
  run_schedule (ms ++ ms') s = run_schedule ms' (run_schedule ms s).
Proof. unfold run_schedule. apply foldl_app. Qed.

Lemma guard_run_schedule_snoc ms m c :
  Guard.run_schedule (ms ++ [m]) c = Guard.step m (Guard.run_schedule ms c).
Proof. unfold Guard.run_schedule. rewrite foldl_app. reflexivity. Qed.

Lemma remaining_boot tables n : remaining (boot tables n) = 3 * n + 1.
Proof. unfold remaining. cbn. rewrite work_replicate_called. reflexivity. Qed.

Lemma not_runnable_step m s : runnable m s = false → step m s = s.
Proof.
  destruct m as [ch|i ch]; cbn [runnable step].
  - unfold import_step. destruct s as [c q wk]. cbn.
    destruct (import c); [discriminate|reflexivity..].
  - unfold call_step. destruct (calls (config s) !! i) as [p|]; [|reflexivity].
    destruct p; try discriminate; try reflexivity. intros ->. reflexivity.
Qed.

Lemma runnable_step tables m s :
  invariant tables s → runnable m s = true → remaining (step m s) < remaining s.
Proof.
  intros [Hc Hw Hnd Hwk]. destruct m as [ch|i ch]; cbn [runnable step]; unfold remaining.
  - unfold import_step. destruct (import (config s)) eqn:Himp; try discriminate.
    intros _. destruct ch; cbn; lia.
  - unfold call_step. destruct (calls (config s) !! i) as [p|] eqn:Hi; [|discriminate].
    pose proof (work_insert (calls (config s)) i _ Ready Hi) as X1.
    pose proof (work_insert (calls (config s)) i _ Acquiring Hi) as X2.
    pose proof (work_insert (calls (config s)) i _ InitDb Hi) as X3.
    destruct p; try discriminate; cbn [weight] in *.
    + intros _. destruct (db_initialized (config s)); [cbn; lia|].
      destruct (lock_free s); cbn; lia.
    + intros ->. cbn zeta.
      destruct (db_initialized (config (resume_acquire s))); [|cbn; lia].
      rewrite leave_held by reflexivity. cbn. lia.
    + intros _. pose proof (holder_lock_held _ _ _ Hc Hi) as Hl.
      destruct ch; rewrite leave_held by exact Hl; cbn; try lia.
      pose proof (work_insert (calls (config s)) i _ (Failed e) Hi) as X4.
      cbn [weight] in X4. lia.
Qed.

Lemma unfinished_call (ps : list pc) :
  forallb finished ps = false → ∃ i p, ps !! i = Some p ∧ finished p = false.
Proof.
  induction ps as [|x ps IH]; [discriminate|]. cbn [forallb].
  destruct (finished x) eqn:Hx; cbn.
  - intros H. destruct (IH H) as (i & p & Hi & Hp). exists (S i), p. split; assumption.
  - intros _. exists 0, x. split; [reflexivity|exact Hx].
Qed.

Lemma some_task_runnable tables s :
  invariant tables s → quiescent (config s) = false → ∃ m, runnable m s = true.
Proof.
  intros [Hc Hw Hnd Hwk] Hq. unfold quiescent in Hq.
  destruct (import (config s)) eqn:Himp;
    [exists (RunImport Go); cbn; rewrite Himp; reflexivity|..].
  all: rewrite andb_true_r in Hq.
  all: destruct (unfinished_call _ Hq) as (i & p & Hi & Hp).
  all: destruct p; try discriminate Hp;
    try (exists (RunCall i Go); cbn; rewrite Hi; reflexivity).
  all: destruct (lock_held (config s)) eqn:Hl;
    [destruct (some_holder (calls (config s))) as [k Hk];
       [rewrite (inv_holders _ _ Hc), Hl; lia|];
     exists (RunCall k Go); cbn; rewrite Hk; reflexivity|].
  all: apply Hw in Hi; destruct (waiters s) as [|j ws] eqn:Hws; [inversion Hi|].
  all: exists (RunCall j Go); cbn.
  all: assert (calls (config s) !! j = Some Acquiring) as -> by (apply Hw; left).
  all: unfold first_woken; rewrite Hwk, Hws; cbn.
  all: rewrite bool_decide_eq_true_2 by reflexivity; reflexivity.
Qed.

Lemma segments_run_bound tables ms s :
  invariant tables s → segments_run ms s + remaining (run_schedule ms s) ≤ remaining s.
Proof.
  revert s. induction ms as [|m ms IH]; intros s Hinv; [cbn; lia|].
  cbn [segments_run]. change (run_schedule (m :: ms) s) with (run_schedule ms (step m s)).
  pose proof (IH (step m s) (fifo_invariant_step _ _ _ Hinv)) as IH'.
  destruct (runnable m s) eqn:Hr.
  - pose proof (runnable_step _ _ _ Hinv Hr). lia.
  - rewrite (not_runnable_step _ _ Hr) in *. lia.
Qed.

Lemma tasks_can_finish tables s :
  invariant tables s →
  ∃ ms, length ms ≤ remaining s ∧ quiescent (config (run_schedule ms s)) = true.
Proof.
  remember (remaining s) as k eqn:Hk. revert s Hk.
  induction k as [k IH] using lt_wf_ind. intros s Hk Hinv.
  destruct (quiescent (config s)) eqn:Hq; [exists []; split; [cbn; lia|exact Hq]|].
  destruct (some_task_runnable _ _ Hinv Hq) as [m Hm].
  pose proof (runnable_step _ _ _ Hinv Hm) as Hlt.
  destruct (IH (remaining (step m s)) ltac:(lia) (step m s) eq_refl (fifo_invariant_step _ _ _ Hinv))
    as (ms & Hlen & Hfin).
  exists (m :: ms). split; [cbn [length]; lia|exact Hfin].
Qed.

Lemma remaining_run tables n ms : remaining (run_schedule ms (boot tables n)) ≤ 3 * n + 1.
Proof.
  pose proof (segments_run_bound tables ms _ (fifo_invariant_boot tables n)).
  rewrite remaining_boot in *. lia.
Qed.

(** X18. The guard cannot deadlock. Under the wake-up order of
    [asyncio.Lock], in every state that N concurrent calls and the import
    task can reach, whatever raised before: unless every task is over, the
    event loop has a task to run; each segment it runs brings the end
    nearer, and a task it cannot run leaves the state as it is; so every
    schedule runs at most 3 N + 1 segments, and at most that many further
    segments end every call. *)
Theorem guard_cannot_deadlock (tables : bool) (n : nat) (ms : list move) :
  let s := run_schedule ms (boot tables n) in
  (quiescent (config s) = false → ∃ m, runnable m s = true)
  ∧ (∀ m, runnable m s = true → remaining (step m s) < remaining s)
  ∧ (∀ m, runnable m s = false → step m s = s)
  ∧ segments_run ms (boot tables n) + remaining s ≤ 3 * n + 1
  ∧ ∃ ms', length ms' ≤ 3 * n + 1
           ∧ quiescent (config (run_schedule (ms ++ ms') (boot tables n))) = true.
Proof.
  intros s. pose proof (fifo_invariant_run tables n ms) as Hinv. fold s in Hinv.
  split; [apply (some_task_runnable tables), Hinv|].
  split; [intros m; apply (runnable_step tables), Hinv|].
  split; [intros m; apply not_runnable_step|].
  split.
  - pose proof (segments_run_bound tables ms _ (fifo_invariant_boot tables n)) as H.
    rewrite remaining_boot in H. exact H.
  - destruct (tasks_can_finish tables s Hinv) as (ms' & Hlen & Hfin).
    exists ms'. split; [pose proof (remaining_run tables n ms); fold s in H; lia|].
    rewrite fifo_run_schedule_app. exact Hfin.
Qed.

(** X21. The wake-up order of [asyncio.Lock] only removes interleavings:
    every configuration that concurrent calls reach under it is reached by a
    schedule, no longer, of the guard with the lock as plain mutual
    exclusion, so what holds of every interleaving there holds of the calls
    under [asyncio.Lock]. *)
Theorem asyncio_order_refines_guard (tables : bool) (n : nat) (ms : list move) :
  ∃ ms', length ms' ≤ length ms
         ∧ config (run_schedule ms (boot tables n))
           = Guard.run_schedule ms' (Guard.boot tables n).
Proof.
  induction ms as [|m ms IH] using rev_ind; [exists []; split; [lia|reflexivity]|].
  destruct IH as (ms' & Hlen & Heq). rewrite fifo_run_schedule_snoc.
  destruct (step_refines tables m _ (fifo_invariant_run tables n ms)) as [Hsame|[m' Hstep]].
  - exists ms'. split; [rewrite length_app; cbn; lia|]. rewrite Hsame. exact Heq.
  - exists (ms' ++ [m']). split; [rewrite !length_app; cbn; lia|].
    rewrite Hstep, Heq, guard_run_schedule_snoc. reflexivity.
Qed.

(** X22. The lock is handed over in arrival order. When the [init_db] of
    the call that holds the lock raises, the call ends with that exception,
    the lock is released with the flag unset, and the calls that wait stay
    queued in their order; the first of them, and no other call, enters
    [init_db] when it runs next: a later waiter stays suspended and a call
    that starts now queues behind them. With nobody waiting, a call that
    starts now enters [init_db] itself. *)
Theorem failed_init_db_wakes_first_waiter
    (tables : bool) (n : nat) (ms : list move) (i : nat) (e : exn) :
  let s := run_schedule ms (boot tables n) in
  let s' := step (RunCall i (InitFails e)) s in
  calls (config s) !! i = Some InitDb →
  calls (config s') !! i = Some (Failed e)
  ∧ lock_held (config s') = false
  ∧ db_initialized (config s') = false
  ∧ waiters s' = waiters s
  ∧ (∀ j ch, head (waiters s) = Some j →
       calls (config (step (RunCall j ch) s')) !! j = Some InitDb)
  ∧ (∀ j k ch, head (waiters s) = Some j → k ≠ j →
       calls (config (step (RunCall k ch) s')) !! k ≠ Some InitDb)
  ∧ (∀ k ch, waiters s = [] → calls (config s') !! k = Some Called →
       calls (config (step (RunCall k ch) s')) !! k = Some InitDb).
Proof.
  intros s s' Hi. pose proof (fifo_invariant_run tables n ms) as Hinv. fold s in Hinv.
  pose proof (fifo_invariant_step tables (RunCall i (InitFails e)) s Hinv) as Hinv'. fold s' in Hinv'.
  destruct Hinv as [Hc Hw Hnd Hwk].
  pose proof (holder_lock_held _ _ _ Hc Hi) as Hl.
  pose proof (inv_lock _ _ Hc Hl) as Hflag.
  assert (s' = {| config := with_call i (Failed e) (set_lock_held false (config s));
                  waiters := waiters s;
                  woken := match waiters s with [] => woken s | _ => true end |}) as Hs'
    by (subst s'; cbn [step]; unfold call_step; rewrite Hi; apply leave_held, Hl).
  assert (i < length (calls (config s))) as Hlt by (eapply lookup_lt_Some, Hi).
  split; [rewrite Hs'; cbn; apply list_lookup_insert_eq, Hlt|].
  split; [rewrite Hs'; reflexivity|].
  split; [rewrite Hs'; exact Hflag|].
  split; [rewrite Hs'; reflexivity|].
  split; [|split].
  - intros j ch Hj. destruct (waiters s) as [|j' ws] eqn:Hws; [discriminate|].
    injection Hj as ->.
    assert (calls (config s) !! j = Some Acquiring) as Hjw by (apply Hw; left).
    assert (j ≠ i) as Hne by congruence.
    rewrite Hs'. cbn [step]. unfold call_step. cbn.
    rewrite list_lookup_insert_ne, Hjw by congruence.
    unfold first_woken. cbn. rewrite bool_decide_eq_true_2 by reflexivity. cbn.
    rewrite Hflag. cbn. apply list_lookup_insert_eq.
    rewrite length_insert. eapply lookup_lt_Some, Hjw.
  - intros j k ch Hj Hne Hk.
    pose proof (holder_lock_held _ _ _ (inv_config _ _ (fifo_invariant_step tables (RunCall k ch) s' Hinv')) Hk)
      as Hheld.
    revert Hk Hheld. cbn [step]. unfold call_step.
    destruct (calls (config s') !! k) as [p|] eqn:Hk'; [|congruence].
    destruct p; try congruence.
    + rewrite Hs'. cbn. rewrite Hflag. unfold lock_free. cbn.
      rewrite bool_decide_eq_false_2 by (destruct (waiters s); [discriminate Hj|discriminate]).
      cbn. intros Hk _. rewrite Hs' in Hk'. cbn in Hk'.
      rewrite list_lookup_insert_eq in Hk; [discriminate Hk|].
      eapply lookup_lt_Some, Hk'.
    + unfold first_woken. rewrite Hs'. cbn.
      rewrite (bool_decide_eq_false_2 (head (waiters s) = Some k)) by congruence.
      rewrite andb_false_r. cbn. rewrite Hs' in Hk'. cbn in Hk'. rewrite Hk'. discriminate.
    + intros _ _. pose proof (holder_lock_held _ _ _ (inv_config _ _ Hinv') Hk') as Hheld.
      rewrite Hs' in Hheld. discriminate Hheld.
  - intros k ch Hws Hk. rewrite Hs' in Hk |- *. cbn in Hk. cbn [step]. unfold call_step. cbn.
    rewrite Hk, Hflag. unfold lock_free. cbn. rewrite bool_decide_eq_true_2 by exact Hws. cbn.
    apply list_lookup_insert_eq. eapply lookup_lt_Some, Hk.
Qed.

(** Call 0 is inside [init_db], calls 1 and 2 wait in that order and call 3
    has not started when [init_db] raises: call 1 is next, call 2 stays
    suspended and call 3 queues behind both. *)
Lemma failed_init_db_wakes_first_waiter_witness :
  let s' := step (RunCall 0 (InitFails (OperationalError "database is locked")))
              (run_schedule [RunCall 0 Go; RunCall 1 Go; RunCall 2 Go] (boot false 4)) in
  waiters s' = [1; 2]
  ∧ calls (config (step (RunCall 1 Go) s')) !! 1 = Some InitDb
  ∧ calls (config (step (RunCall 2 Go) s')) !! 2 ≠ Some InitDb
  ∧ calls (config (step (RunCall 3 Go) s')) !! 3 ≠ Some InitDb.
Proof.
  intros s'.
  destruct (failed_init_db_wakes_first_waiter false 4 [RunCall 0 Go; RunCall 1 Go; RunCall 2 Go] 0
              (OperationalError "database is locked") eq_refl)
    as (_ & _ & _ & H4 & H5 & H6 & _).
  split; [exact H4|]. split; [apply (H5 1 Go); reflexivity|].
  split; [apply (H6 1 2 Go); [reflexivity|lia]|apply (H6 1 3 Go); [reflexivity|lia]].
Defined.

(** A call that starts while a woken waiter has not yet run queues behind
    it, although the lock is free; the waiters then run in arrival order. *)
Example newcomer_queues_behind_woken_waiter :
  let s := run_schedule [RunCall 0 Go; RunCall 1 Go; RunCall 0 (InitFails (OperationalError "unable to open database file"))]
             (boot false 3) in
  let s' := step (RunCall 2 Go) s in
  lock_held (config s) = false ∧ woken s = true ∧ waiters s = [1]
  ∧ calls (config s') = [Failed (OperationalError "unable to open database file"); Acquiring; Acquiring]
  ∧ waiters s' = [1; 2]
  ∧ step (RunCall 2 Go) s' = s'
  ∧ calls (config (run_schedule [RunCall 1 Go; RunCall 1 Go; RunCall 2 Go] s'))
    = [Failed (OperationalError "unable to open database file"); Ready; Ready].
Proof. repeat split. Qed.

End FifoFacts.
